(** * Arkanoid (C++11 / SFML): the simulation core of [main.cpp]

    A shallow embedding of the game's entities (ball, paddle, bricks), of the
    collision resolution, of the fixed-step scheduler and of the game loop,
    followed by the properties of the specification.

    The program computes with C++ [float].  It is embedded as IEEE-754
    binary32 (24 bits of precision, round to nearest even), through the
    executable specification of the Standard Library ([SpecFloat]). *)

From Stdlib Require Import ZArith List Bool Lia.
From Stdlib Require Import Floats.SpecFloat.
Import ListNotations.

Local Open Scope Z_scope.

(** ** Binary32 arithmetic, as the C++ operators on [float] *)

Module F32.

Definition prec : Z := 24.
Definition emax : Z := 128.

Definition float : Type := spec_float.

Definition add : float -> float -> float := SFadd prec emax.
Definition sub : float -> float -> float := SFsub prec emax.
Definition mul : float -> float -> float := SFmul prec emax.
Definition div : float -> float -> float := SFdiv prec emax.
Definition opp : float -> float := SFopp.
Definition abs : float -> float := SFabs.

(** The four relational operators and [==]; all are false on NaN. *)
Definition ltb (a b : float) : bool :=
  match SFcompare a b with Some Lt => true | _ => false end.
Definition leb (a b : float) : bool :=
  match SFcompare a b with Some Lt | Some Eq => true | _ => false end.
Definition gtb (a b : float) : bool :=
  match SFcompare a b with Some Gt => true | _ => false end.
Definition geb (a b : float) : bool :=
  match SFcompare a b with Some Gt | Some Eq => true | _ => false end.
Definition eqb (a b : float) : bool :=
  match SFcompare a b with Some Eq => true | _ => false end.

(** Conversion of an [int] to [float]. *)
Definition of_Z (n : Z) : float := binary_normalize prec emax n 0 false.

Definition is_nan (a : float) : bool :=
  match a with S754_nan => true | _ => false end.

End F32.

Definition float : Type := F32.float.

Declare Scope f32_scope.
Delimit Scope f32_scope with f32.
Infix "+" := F32.add : f32_scope.
Infix "-" := F32.sub : f32_scope.
Infix "*" := F32.mul : f32_scope.
Infix "/" := F32.div : f32_scope.
Notation "- x" := (F32.opp x) : f32_scope.
Infix "<?" := F32.ltb : f32_scope.
Infix "<=?" := F32.leb : f32_scope.
Infix ">?" := F32.gtb : f32_scope.
Infix ">=?" := F32.geb : f32_scope.

(** ** Constants of the program *)


Definition windowWidth : Z := 800.
Definition windowHeight : Z := 600.

Definition ballRadius : float := F32.of_Z 10.
(** [0.4f] is the binary32 number nearest to 4/10, [0x3ECCCCCD]. *)
Definition ballVelocity : float := S754_finite false 13421773 (-25).

Definition paddleWidth : float := F32.of_Z 60.
Definition paddleHeight : float := F32.of_Z 20.
Definition paddleVelocity : float := F32.of_Z 1.

Definition blockWidth : float := F32.of_Z 60.
Definition blockHeight : float := F32.of_Z 20.
Definition countBlocksX : Z := 11.
Definition countBlocksY : Z := 4.

Definition ftStep : float := F32.of_Z 1.
Definition ftSlice : float := F32.of_Z 1.

(** ** SFML values the simulation reads and writes *)

Record Vector2f := mkVector2f { vx : float; vy : float }.

(** [Vector2f * float] *)
Definition scale (v : Vector2f) (k : float) : Vector2f :=
  mkVector2f (vx v * k)%f32 (vy v * k)%f32.

(** [sf::Transformable::move]: the offset is added to the position. *)
Definition movePos (p offset : Vector2f) : Vector2f :=
  mkVector2f (vx p + vx offset)%f32 (vy p + vy offset)%f32.

(** A [CircleShape], reduced to what the simulation reads: position, radius. *)
Record CircleShape := mkCircle { c_position : Vector2f; c_radius : float }.

(** A [RectangleShape]: position and size. *)
Record RectangleShape := mkRect { r_position : Vector2f; r_size : Vector2f }.

(** The state of the keyboard at one [Keyboard::isKeyPressed] sampling. *)
Record Keys := mkKeys
  { keyLeft : bool; keyRight : bool; keyEscape : bool; keySpace : bool }.

Definition noKeys : Keys := mkKeys false false false false.

(** The edges every entity exposes; [isIntersecting] is a template over it. *)
Class Bounded (T : Type) := {
  left : T -> float;
  right : T -> float;
  top : T -> float;
  bottom : T -> float
}.

(** ** Ball *)

Record Ball := mkBall { b_shape : CircleShape; b_velocity : Vector2f }.

Module BallM.

Definition make (mX mY : float) : Ball :=
  mkBall (mkCircle (mkVector2f mX mY) ballRadius)
         (mkVector2f (- ballVelocity)%f32 (- ballVelocity)%f32).

Definition x (b : Ball) : float := vx (c_position (b_shape b)).
Definition y (b : Ball) : float := vy (c_position (b_shape b)).
Definition left (b : Ball) : float := (x b - c_radius (b_shape b))%f32.
Definition right (b : Ball) : float := (x b + c_radius (b_shape b))%f32.
Definition top (b : Ball) : float := (y b - c_radius (b_shape b))%f32.
Definition bottom (b : Ball) : float := (y b + c_radius (b_shape b))%f32.

Definition setPosition (b : Ball) (p : Vector2f) : Ball :=
  mkBall (mkCircle p (c_radius (b_shape b))) (b_velocity b).
Definition setVelocityX (b : Ball) (v : float) : Ball :=
  mkBall (b_shape b) (mkVector2f v (vy (b_velocity b))).
Definition setVelocityY (b : Ball) (v : float) : Ball :=
  mkBall (b_shape b) (mkVector2f (vx (b_velocity b)) v).

Definition resetBall (b : Ball) : Ball :=
  let b := setPosition b (mkVector2f (F32.of_Z (windowWidth / 2))
                                     (F32.of_Z (windowHeight / 2))) in
  setVelocityY b (- ballVelocity)%f32.

(** The ball after [shape.move(velocity * mFT)]. *)
Definition moved (b : Ball) (mFT : float) : Ball :=
  setPosition b (movePos (c_position (b_shape b)) (scale (b_velocity b) mFT)).

(** [update] returns [true] and the new ball. *)
Definition update (b : Ball) (mFT : float) : bool * Ball :=
  let b := moved b mFT in
  let b := if (bottom b >? F32.of_Z windowHeight)%f32
           then setVelocityY b (vy (b_velocity b)) else b in
  let b := if ((left b <? F32.of_Z 0) || (right b >? F32.of_Z windowWidth))%f32
           then setVelocityX b (- vx (b_velocity b))%f32 else b in
  let b := if (top b <? F32.of_Z 0)%f32
           then setVelocityY b (- vy (b_velocity b))%f32 else b in
  (true, b).

End BallM.

#[export] Instance Ball_Bounded : Bounded Ball :=
  {| left := BallM.left; right := BallM.right;
     top := BallM.top; bottom := BallM.bottom |}.

(** ** Rectangle, the base of Paddle and Brick *)

Module RectangleM.

Definition x (s : RectangleShape) : float := vx (r_position s).
Definition y (s : RectangleShape) : float := vy (r_position s).
Definition left (s : RectangleShape) : float :=
  (x s - vx (r_size s) / F32.of_Z 2)%f32.
Definition right (s : RectangleShape) : float :=
  (x s + vx (r_size s) / F32.of_Z 2)%f32.
Definition top (s : RectangleShape) : float :=
  (y s - vy (r_size s) / F32.of_Z 2)%f32.
Definition bottom (s : RectangleShape) : float :=
  (y s + vy (r_size s) / F32.of_Z 2)%f32.

End RectangleM.

#[export] Instance Rectangle_Bounded : Bounded RectangleShape :=
  {| left := RectangleM.left; right := RectangleM.right;
     top := RectangleM.top; bottom := RectangleM.bottom |}.

(** ** Paddle *)

Record Paddle := mkPaddle { p_shape : RectangleShape; p_velocity : Vector2f }.

Module PaddleM.

(** [Vector2f velocity;] is value-initialised to (0, 0). *)
Definition make (mX mY : float) : Paddle :=
  mkPaddle (mkRect (mkVector2f mX mY) (mkVector2f paddleWidth paddleHeight))
           (mkVector2f (F32.of_Z 0) (F32.of_Z 0)).

Definition x (p : Paddle) : float := RectangleM.x (p_shape p).
Definition y (p : Paddle) : float := RectangleM.y (p_shape p).

Definition setVelocityX (p : Paddle) (v : float) : Paddle :=
  mkPaddle (p_shape p) (mkVector2f v (vy (p_velocity p))).

Definition moved (p : Paddle) (mFT : float) : Paddle :=
  mkPaddle (mkRect (movePos (r_position (p_shape p)) (scale (p_velocity p) mFT))
                   (r_size (p_shape p)))
           (p_velocity p).

Definition update (k : Keys) (p : Paddle) (mFT : float) : Paddle :=
  let p := moved p mFT in
  if keyLeft k && (left (p_shape p) >? F32.of_Z 0)%f32
  then setVelocityX p (- paddleVelocity)%f32
  else if keyRight k && (right (p_shape p) <? F32.of_Z windowWidth)%f32
  then setVelocityX p paddleVelocity
  else setVelocityX p (F32.of_Z 0).

End PaddleM.

#[export] Instance Paddle_Bounded : Bounded Paddle :=
  {| left := fun p => left (p_shape p); right := fun p => right (p_shape p);
     top := fun p => top (p_shape p); bottom := fun p => bottom (p_shape p) |}.

(** ** Brick *)

Record Brick := mkBrick { k_shape : RectangleShape; destroyed : bool }.

Module BrickM.

Definition make (mX mY : float) : Brick :=
  mkBrick (mkRect (mkVector2f mX mY) (mkVector2f blockWidth blockHeight)) false.

Definition x (k : Brick) : float := RectangleM.x (k_shape k).
Definition y (k : Brick) : float := RectangleM.y (k_shape k).

Definition setDestroyed (k : Brick) (d : bool) : Brick := mkBrick (k_shape k) d.

End BrickM.

#[export] Instance Brick_Bounded : Bounded Brick :=
  {| left := fun k => left (k_shape k); right := fun k => right (k_shape k);
     top := fun k => top (k_shape k); bottom := fun k => bottom (k_shape k) |}.

(** ** Collisions *)

Definition isIntersecting {T1 T2 : Type} `{Bounded T1} `{Bounded T2}
    (mA : T1) (mB : T2) : bool :=
  (right mA >=? left mB)%f32 && (left mA <=? right mB)%f32 &&
  (bottom mA >=? top mB)%f32 && (top mA <=? bottom mB)%f32.

Definition testCollisionPaddle (mPaddle : Paddle) (mBall : Ball) : Ball :=
  if negb (isIntersecting mPaddle mBall) then mBall
  else
    let mBall := BallM.setVelocityY mBall (- ballVelocity)%f32 in
    if (BallM.x mBall <? PaddleM.x mPaddle)%f32
    then BallM.setVelocityX mBall (- ballVelocity)%f32
    else BallM.setVelocityX mBall ballVelocity.

(** The locals of [testCollision(Brick&, Ball&)]. *)
Definition overlapLeft (mBrick : Brick) (mBall : Ball) : float :=
  (right mBall - left mBrick)%f32.
Definition overlapRight (mBrick : Brick) (mBall : Ball) : float :=
  (right mBrick - left mBall)%f32.
Definition overlapTop (mBrick : Brick) (mBall : Ball) : float :=
  (bottom mBall - top mBrick)%f32.
Definition overlapBottom (mBrick : Brick) (mBall : Ball) : float :=
  (bottom mBrick - top mBall)%f32.

Definition ballFromLeft (mBrick : Brick) (mBall : Ball) : bool :=
  (overlapLeft mBrick mBall <? overlapRight mBrick mBall)%f32.
Definition ballFromTop (mBrick : Brick) (mBall : Ball) : bool :=
  (overlapTop mBrick mBall <? overlapBottom mBrick mBall)%f32.

Definition minOverlapX (mBrick : Brick) (mBall : Ball) : float :=
  if ballFromLeft mBrick mBall
  then overlapLeft mBrick mBall else overlapRight mBrick mBall.
Definition minOverlapY (mBrick : Brick) (mBall : Ball) : float :=
  if ballFromTop mBrick mBall
  then overlapTop mBrick mBall else overlapBottom mBrick mBall.

Definition testCollisionBrick (mBrick : Brick) (mBall : Ball) : Brick * Ball :=
  if negb (isIntersecting mBrick mBall) then (mBrick, mBall)
  else
    let mBrick' := BrickM.setDestroyed mBrick true in
    if (minOverlapX mBrick mBall <? minOverlapY mBrick mBall)%f32
    then (mBrick',
          BallM.setVelocityX mBall
            (if ballFromLeft mBrick mBall then (- ballVelocity)%f32 else ballVelocity))
    else (mBrick',
          BallM.setVelocityY mBall
            (if ballFromTop mBrick mBall then (- ballVelocity)%f32 else ballVelocity)).

(** ** Game *)

(** A window event, as far as [inputPhase] tells them apart. *)
Inductive Event := Closed | OtherEvent.

Definition isClosed (e : Event) : bool :=
  match e with Closed => true | OtherEvent => false end.

Record Game := mkGame {
  windowOpen : bool;
  lastFT : float;
  currentSlice : float;
  running : bool;
  ball : Ball;
  paddle : Paddle;
  bricks : list Brick
}.

Module GameM.

(** The inner loop of the constructor: one column of the wall. *)
Definition column (iX : Z) : list Brick :=
  map (fun iY =>
         BrickM.make ((F32.of_Z (iX + 1) * (blockWidth + F32.of_Z 3)) + F32.of_Z 22)%f32
                     (F32.of_Z (iY + 2) * (blockHeight + F32.of_Z 3))%f32)
      (map Z.of_nat (seq 0 (Z.to_nat countBlocksY))).

Definition wall : list Brick :=
  flat_map column (map Z.of_nat (seq 0 (Z.to_nat countBlocksX))).

Definition make : Game :=
  mkGame true (F32.of_Z 0) (F32.of_Z 0) false
         (BallM.make (F32.of_Z (windowWidth / 2)) (F32.of_Z (windowHeight / 2)))
         (PaddleM.make (F32.of_Z (windowWidth / 2)) (F32.of_Z (windowHeight - 50)))
         wall.

Definition setWindowOpen (g : Game) (o : bool) : Game :=
  mkGame o (lastFT g) (currentSlice g) (running g) (ball g) (paddle g) (bricks g).
Definition setLastFT (g : Game) (t : float) : Game :=
  mkGame (windowOpen g) t (currentSlice g) (running g) (ball g) (paddle g) (bricks g).
Definition setCurrentSlice (g : Game) (t : float) : Game :=
  mkGame (windowOpen g) (lastFT g) t (running g) (ball g) (paddle g) (bricks g).
Definition setRunning (g : Game) (r : bool) : Game :=
  mkGame (windowOpen g) (lastFT g) (currentSlice g) r (ball g) (paddle g) (bricks g).
Definition setBall (g : Game) (b : Ball) : Game :=
  mkGame (windowOpen g) (lastFT g) (currentSlice g) (running g) b (paddle g) (bricks g).
Definition setEntities (g : Game) (b : Ball) (p : Paddle) (ks : list Brick) : Game :=
  mkGame (windowOpen g) (lastFT g) (currentSlice g) (running g) b p ks.

(** The event loop of [inputPhase]: a closed window delivers no event, so
    the loop ends at the first [Closed]. *)
Fixpoint pollEvents (evs : list Event) (g : Game) : Game :=
  match evs with
  | [] => g
  | e :: evs =>
      if windowOpen g
      then pollEvents evs (if isClosed e then setWindowOpen g false else g)
      else g
  end.

Definition inputPhase (evs : list Event) (k : Keys) (g : Game) : Game :=
  let g := pollEvents evs g in
  let g := if keyEscape k then setRunning g false else g in
  if keySpace k then setBall g (BallM.resetBall (ball g)) else g.

(** [for (auto &brick : bricks) testCollision(brick, ball);] *)
Fixpoint testBricks (bs : list Brick) (mBall : Ball) : list Brick * Ball :=
  match bs with
  | [] => ([], mBall)
  | b :: bs =>
      let '(b', mBall') := testCollisionBrick b mBall in
      let '(bs', mBall'') := testBricks bs mBall' in
      (b' :: bs', mBall'')
  end.

(** [bricks.erase(remove_if(..., destroyed), end(bricks))] *)
Definition eraseDestroyed (bs : list Brick) : list Brick :=
  filter (fun b => negb (destroyed b)) bs.

(** The body of the loop of [updatePhase]: one simulation step, under the
    keyboard state [k] that [paddle.update] samples. *)
Definition simStep (k : Keys) (g : Game) : Game :=
  let mBall := snd (BallM.update (ball g) ftStep) in
  let mPaddle := PaddleM.update k (paddle g) ftStep in
  let mBall := testCollisionPaddle mPaddle mBall in
  let '(bs, mBall) := testBricks (bricks g) mBall in
  setEntities g mBall mPaddle (eraseDestroyed bs).

(** The [for] loop of [updatePhase].  [kb i] is the keyboard state seen by
    the [i]-th simulation step since the start of the game; the loop
    returns the game and the index of the next step.  In binary32 the
    loop does not end when [currentSlice - ftSlice] rounds back to
    [currentSlice], hence the fuel. *)
Fixpoint updateLoop (fuel : nat) (kb : nat -> Keys) (i : nat) (g : Game)
    : option (Game * nat) :=
  if (currentSlice g >=? ftSlice)%f32 then
    match fuel with
    | O => None
    | S fuel =>
        let g := simStep (kb i) g in
        updateLoop fuel kb (S i) (setCurrentSlice g (currentSlice g - ftSlice)%f32)
    end
  else Some (g, i).

Definition updatePhase (fuel : nat) (kb : nat -> Keys) (i : nat) (g : Game)
    : option (Game * nat) :=
  updateLoop fuel kb i (setCurrentSlice g (currentSlice g + lastFT g)%f32).

(** What one [drawPhase] submits to the window. *)
Record Frame := mkFrame
  { f_ball : CircleShape; f_paddle : RectangleShape; f_bricks : list RectangleShape }.

Definition drawPhase (g : Game) : Frame :=
  mkFrame (b_shape (ball g)) (p_shape (paddle g)) (map k_shape (bricks g)).

(** What one iteration of the loop of [run] takes from its environment:
    the pending window events, the keyboard state at [inputPhase], and the
    duration the clock measures for the iteration. *)
Record FrameInput := mkFrameInput
  { events : list Event; keys : Keys; elapsed : float }.

(** The state the loop of [run] threads: the game, the index of the next
    simulation step, and the frames displayed so far (latest first). *)
Record Loop := mkLoop { game : Game; stepNo : nat; displayed : list Frame }.

(** One iteration of [while (running)]. *)
Definition iteration (fuel : nat) (kb : nat -> Keys) (inp : FrameInput) (l : Loop)
    : option Loop :=
  let g := inputPhase (events inp) (keys inp) (game l) in
  match updatePhase fuel kb (stepNo l) g with
  | None => None
  | Some (g, i) =>
      Some (mkLoop (setLastFT g (elapsed inp)) i (drawPhase g :: displayed l))
  end.

(** [while (running)] over the inputs of the successive iterations; the
    inputs the loop did not consume are returned with the final state. *)
Fixpoint runLoop (fuel : nat) (kb : nat -> Keys) (inps : list FrameInput) (l : Loop)
    : option (Loop * list FrameInput) :=
  if running (game l) then
    match inps with
    | [] => Some (l, [])
    | inp :: rest =>
        match iteration fuel kb inp l with
        | None => None
        | Some l' => runLoop fuel kb rest l'
        end
    end
  else Some (l, inps).

Definition run (fuel : nat) (kb : nat -> Keys) (inps : list FrameInput) (g : Game)
    : option (Loop * list FrameInput) :=
  runLoop fuel kb inps (mkLoop (setRunning g true) 0 []).

End GameM.


(** ** Predicates of the specification *)

(** The speed of the ball on each axis is the configured constant. *)
Definition speedOK (b : Ball) : Prop :=
  F32.abs (vx (b_velocity b)) = ballVelocity /\
  F32.abs (vy (b_velocity b)) = ballVelocity.

(** [w] is [v] up to its sign. *)
Definition sameUpToSign (v w : float) : Prop := w = v \/ w = (- v)%f32.

(** The operations of the program that write a ball. *)
Inductive ballOp : Ball -> Ball -> Prop :=
| op_update : forall b mFT, ballOp b (snd (BallM.update b mFT))
| op_paddle : forall b p, ballOp b (testCollisionPaddle p b)
| op_brick : forall b k, ballOp b (snd (testCollisionBrick k b))
| op_reset : forall b, ballOp b (BallM.resetBall b).

(** The ball states of a run: the constructor, then any operations. *)
Inductive ballReachable : Ball -> Prop :=
| reach_make : forall mX mY, ballReachable (BallM.make mX mY)
| reach_op : forall b b', ballReachable b -> ballOp b b' -> ballReachable b'.

Definition entryVelocityY (k : Brick) (b : Ball) : float :=
  if (overlapTop k b <? overlapBottom k b)%f32
  then (- ballVelocity)%f32 else ballVelocity.

(** The ball the bricks are tested against in one simulation step. *)
Definition ballAtBricks (k : Keys) (g : Game) : Ball :=
  testCollisionPaddle (PaddleM.update k (paddle g) ftStep)
                      (snd (BallM.update (ball g) ftStep)).

(** [n] simulation steps in a row, the first of them the [i]-th. *)
Fixpoint simSteps (n : nat) (kb : nat -> Keys) (i : nat) (g : Game) : Game :=
  match n with
  | O => g
  | S n => simSteps n kb (S i) (GameM.simStep (kb i) g)
  end.

(** The scheduler fed the measured durations of successive frames: each
    [updatePhase] runs with the duration of the frame before it in [lastFT]. *)
Fixpoint feedFrames (fuel : nat) (kb : nat -> Keys) (ds : list float)
    (g : Game) (i : nat) : option (Game * nat) :=
  match ds with
  | [] => Some (g, i)
  | d :: ds =>
      match GameM.updatePhase fuel kb i (GameM.setLastFT g d) with
      | None => None
      | Some (g', i') => feedFrames fuel kb ds g' i'
      end
  end.

(** The input of an iteration of [run] with no event and no key, that the
    clock measures to last [d]. *)
Definition idleFrame (d : float) : GameM.FrameInput :=
  GameM.mkFrameInput [] noKeys d.

(** The binary32 number of [n * 2^-p]. *)
Definition dyadic (p : nat) (n : Z) : float :=
  binary_normalize F32.prec F32.emax n (- Z.of_nat p) false.

(** A duration of [n] units of [2^-p] step: [n / 2^p] steps. *)
Definition gridFrame (p n : nat) : float := dyadic p (Z.of_nat n).

(** The clock fields of the game are on the grid of [2^-p]: less than one
    slice in the accumulator, at most [B] units in [lastFT]. *)
Definition clockOnGrid (p B : nat) (g : Game) : Prop :=
  exists c n : nat,
    currentSlice g = gridFrame p c /\ (c < 2 ^ p)%nat /\
    lastFT g = gridFrame p n /\ (n <= B)%nat.

(** The iteration is measured to last at most [B] units of [2^-p]. *)
Definition inputOnGrid (p B : nat) (inp : GameM.FrameInput) : Prop :=
  exists n : nat, GameM.elapsed inp = gridFrame p n /\ (n <= B)%nat.

(** The game with other values in its two clock fields. *)
Definition withClock (g : Game) (last slice : float) : Game :=
  mkGame (windowOpen g) last slice (running g) (ball g) (paddle g) (bricks g).

(** Two games with the same ball, paddle and bricks. *)
Definition sameEntities (g g' : Game) : Prop :=
  ball g = ball g' /\ paddle g = paddle g' /\ bricks g = bricks g'.

(** The paddle after a sequence of updates at the fixed step. *)
Definition paddleAfter (ks : list Keys) (p : Paddle) : Paddle :=
  fold_left (fun p k => PaddleM.update k p ftStep) ks p.

(** The paddle is inside the window, at the height it was created at. *)
Definition inWindow (p : Paddle) : Prop :=
  ((paddleWidth / F32.of_Z 2)%f32 <=? PaddleM.x p)%f32 = true /\
  (PaddleM.x p <=? (F32.of_Z windowWidth - paddleWidth / F32.of_Z 2))%f32 = true /\
  (left p >=? F32.of_Z 0)%f32 = true /\
  (right p <=? F32.of_Z windowWidth)%f32 = true /\
  PaddleM.y p = PaddleM.y (paddle GameM.make).

(** What holds of the paddle between two updates: it stands at a whole
    abscissa that its next move keeps in the window, at the height it was
    created at. *)
Definition paddleInv (p : Paddle) : Prop :=
  exists n v : Z,
    p_shape p = mkRect (mkVector2f (F32.of_Z n) (F32.of_Z (windowHeight - 50)))
                       (mkVector2f paddleWidth paddleHeight) /\
    p_velocity p = mkVector2f (F32.of_Z v) (F32.of_Z 0) /\
    30 <= n <= 770 /\ -1 <= v <= 1 /\ 30 <= n + v <= 770.

(** The paddle of the game at the whole abscissa [n], moving by [v]. *)
Definition wholePaddle (n v : Z) : Paddle :=
  mkPaddle (mkRect (mkVector2f (F32.of_Z n) (F32.of_Z (windowHeight - 50)))
                   (mkVector2f paddleWidth paddleHeight))
           (mkVector2f (F32.of_Z v) (F32.of_Z 0)).

(** The velocity [Paddle::update] chooses at the whole abscissa [n]. *)
Definition chosenVelocity (k : Keys) (n : Z) : Z :=
  if keyLeft k && (n - 30 >? 0) then -1
  else if keyRight k && (n + 30 <? windowWidth) then 1 else 0.

(** The keyboard with both arrows held. *)
Definition bothKeys : Keys := mkKeys true true false false.

(** The keyboard with only the left arrow held. *)
Definition leftKeys : Keys := mkKeys true false false false.

(** [f] holds of every element and each element after it. *)
Fixpoint pairwiseb {A : Type} (f : A -> A -> bool) (l : list A) : bool :=
  match l with
  | [] => true
  | a :: l' => forallb (f a) l' && pairwiseb f l'
  end.

(** The brick the constructor creates for column [iX] and row [iY]. *)
Definition gridBrick (iX iY : Z) : Brick :=
  BrickM.make (F32.of_Z (63 * (iX + 1) + 22)) (F32.of_Z (23 * (iY + 2))).

(** What the loop of [run] keeps of the game it was started with. *)
Definition gameInv (g : Game) : Prop :=
  paddleInv (paddle g) /\ ballReachable (ball g) /\ incl (bricks g) GameM.wall.

(** ** Integers in binary32 *)

(** [x] is a number of sign [s], or not a number. *)
Definition has_sign (s : bool) (x : float) : Prop :=
  match x with
  | S754_zero s' | S754_infinity s' | S754_finite s' _ _ => s' = s
  | S754_nan => True
  end.

Definition two24 : Z := 16777216.

(** [q] shifted left by [j] bits. *)
Definition pshl (q : positive) (j : nat) : positive := Nat.iter j xO q.

(** The mantissa and the exponent of the binary32 number of a positive
    integer below 2^24. *)
Definition zmant (p : positive) : positive :=
  pshl p (Z.to_nat (24 - Zpos (digits2_pos p))).
Definition zexp (p : positive) : Z := Zpos (digits2_pos p) - 24.

(** ** Integers in binary32: no rounding below 2^24 *)

Section Integers.

Lemma pshl_S q j : pshl q (S j) = xO (pshl q j).
Proof. reflexivity. Qed.

Lemma pshl_val q j : Zpos (pshl q j) = Zpos q * 2 ^ Z.of_nat j.
Proof.
  induction j as [|j IH].
  - simpl. lia.
  - rewrite pshl_S, Pos2Z.inj_xO, IH, Nat2Z.inj_succ, Z.pow_succ_r by lia. lia.
Qed.

Lemma pshl_add q i j : pshl (pshl q i) j = pshl q (j + i).
Proof. unfold pshl. symmetry. apply Nat.iter_add. Qed.

Lemma Pos_iter_xO q k : Pos.iter xO q k = pshl q (Pos.to_nat k).
Proof.
  unfold pshl. revert q. induction k using Pos.peano_ind; intros q.
  - reflexivity.
  - rewrite Pos.iter_succ, Pos2Nat.inj_succ, IHk. reflexivity.
Qed.

Lemma digits_pshl q j : Zpos (digits2_pos (pshl q j)) = Zpos (digits2_pos q) + Z.of_nat j.
Proof.
  induction j as [|j IH].
  - simpl. lia.
  - rewrite pshl_S. cbn [digits2_pos]. rewrite Pos2Z.inj_succ, IH. lia.
Qed.

Lemma iter_pos_nat {A} (f : A -> A) n x :
  iter_pos f n x = Nat.iter (Pos.to_nat n) f x.
Proof.
  revert x. induction n as [n IH|n IH|]; intros x; cbn [iter_pos].
  - rewrite !IH, Pos2Nat.inj_xI. cbn [Nat.iter Nat.mul]. 
    rewrite Nat.add_0_r, <- Nat.iter_add, <- Nat.iter_succ_r. reflexivity.
  - rewrite !IH, Pos2Nat.inj_xO. cbn [Nat.mul]. rewrite Nat.add_0_r, <- Nat.iter_add. reflexivity.
  - reflexivity.
Qed.

(** Shifting out zeros loses nothing. *)
Lemma shr_exact q j :
  Nat.iter j shr_1 (Build_shr_record (Zpos (pshl q j)) false false) =
    Build_shr_record (Zpos q) false false.
Proof.
  induction j as [|j IH]; [reflexivity|].
  rewrite Nat.iter_succ_r, pshl_S. cbn [shr_1 orb]. exact IH.
Qed.


Lemma fexp32_eq x : -149 <= x - 24 -> fexp 24 128 x = x - 24.
Proof. unfold fexp, emin. lia. Qed.

(** A mantissa of at most 24 significant bits followed by zeros is rounded
    to itself, normalised. *)
Lemma binary_round_exact (s : bool) (q : positive) (j : nat) (e : Z) :
  let d := Zpos (digits2_pos q) in
  let t := d + Z.of_nat j + e - 24 in
  d <= 24 -> -149 <= t <= 104 ->
  binary_round 24 128 s (pshl q j) e = S754_finite s (pshl q (Z.to_nat (24 - d))) t.
Proof.
  intros d t Hd Ht.
  assert (Ed : Zpos (digits2_pos q) = d) by reflexivity.
  assert (Et : d + Z.of_nat j + e = t + 24) by (unfold t; lia).
  clearbody t. clearbody d.
  assert (Hfin : forall m, Zpos (digits2_pos m) + t = 24 + t ->
     binary_round_aux 24 128 s (Zpos m) t loc_Exact = S754_finite s m t).
  { intros m Hm. unfold binary_round_aux, shr_fexp. cbn [Zdigits2 shr_record_of_loc].
    rewrite Hm, fexp32_eq by lia. replace (24 + t - 24 - t) with 0 by lia.
    cbn [shr shr_m loc_of_shr_record round_nearest_even Zdigits2].
    rewrite Hm, fexp32_eq by lia. replace (24 + t - 24 - t) with 0 by lia.
    cbn [shr shr_m]. destruct (Z.leb_spec t (128 - 24)); [reflexivity|lia]. }
  unfold binary_round. rewrite digits_pshl, Ed, Et, fexp32_eq by lia.
  replace (t + 24 - 24) with t by lia.
  unfold shl_align. destruct (t - e) as [|n|n] eqn:En.
  - assert (He : e = t) by lia. rewrite He in *. rewrite Hfin.
    + f_equal. f_equal. lia.
    + rewrite digits_pshl, Ed. lia.
  - (* the mantissa is too long: an exact right shift *)
    unfold binary_round_aux, shr_fexp. cbn [Zdigits2 shr_record_of_loc].
    rewrite (digits_pshl q j). rewrite Ed, Et, fexp32_eq by lia.
    replace (t + 24 - 24 - e) with (Zpos n) by lia.
    assert (Hsh : iter_pos shr_1 n (Build_shr_record (Zpos (pshl q j)) false false)
                  = Build_shr_record (Zpos (pshl q (Z.to_nat (24 - d)))) false false).
    { rewrite iter_pos_nat.
      replace j with (Pos.to_nat n + Z.to_nat (24 - d))%nat by lia.
      rewrite <- pshl_add. apply shr_exact. }
    cbn [shr]. rewrite Hsh.
    cbn [shr_m loc_of_shr_record round_nearest_even Zdigits2].
    rewrite digits_pshl, Ed. replace (e + Zpos n) with t by lia.
    replace (d + Z.of_nat (Z.to_nat (24 - d)) + t) with (t + 24) by lia.
    rewrite fexp32_eq by lia.
    replace (t + 24 - 24 - t) with 0 by lia.
    cbn [shr shr_m]. destruct (Z.leb_spec t (128 - 24)); [reflexivity|lia].
  - rewrite Pos_iter_xO, pshl_add, Hfin.
    + f_equal. f_equal. lia.
    + rewrite digits_pshl, Ed. lia.
Qed.


Lemma digits_bounds p :
  2 ^ (Zpos (digits2_pos p) - 1) <= Zpos p < 2 ^ Zpos (digits2_pos p).
Proof.
  induction p as [p IH|p IH|]; cbn [digits2_pos]; rewrite ?Pos2Z.inj_succ.
  - replace (Z.succ (Zpos (digits2_pos p)) - 1) with (Z.succ (Zpos (digits2_pos p) - 1)) by lia.
    rewrite !Z.pow_succ_r by lia. lia.
  - replace (Z.succ (Zpos (digits2_pos p)) - 1) with (Z.succ (Zpos (digits2_pos p) - 1)) by lia.
    rewrite !Z.pow_succ_r by lia. lia.
  - simpl. lia.
Qed.

Lemma digits_le_24 p : Zpos p < two24 -> Zpos (digits2_pos p) <= 24.
Proof.
  intros H. destruct (Z.le_gt_cases (Zpos (digits2_pos p)) 24) as [|Hgt]; [assumption|].
  pose proof (digits_bounds p) as [Hlo _].
  assert (2 ^ 24 <= 2 ^ (Zpos (digits2_pos p) - 1)) by (apply Z.pow_le_mono_r; lia).
  change (2 ^ 24) with two24 in *. lia.
Qed.

Lemma normalize_pos (s : bool) (p : positive) (k : nat) :
  Zpos p < two24 ->
  binary_round 24 128 s (pshl p k) (- Z.of_nat k) = S754_finite s (zmant p) (zexp p).
Proof.
  intros H. pose proof (digits_le_24 p H) as Hd.
  rewrite binary_round_exact by lia.
  unfold zmant, zexp. f_equal. lia.
Qed.

Lemma of_Z_pos (p : positive) :
  Zpos p < two24 -> F32.of_Z (Zpos p) = S754_finite false (zmant p) (zexp p).
Proof. intros H. exact (normalize_pos false p 0 H). Qed.

Lemma of_Z_neg (p : positive) :
  Zpos p < two24 -> F32.of_Z (Zneg p) = S754_finite true (zmant p) (zexp p).
Proof. intros H. exact (normalize_pos true p 0 H). Qed.

(** An integer below 2^24, written with [k] more bits, normalises to the
    binary32 number of the integer. *)
Lemma normalize_exact (n : Z) (k : nat) :
  Z.abs n < two24 ->
  binary_normalize 24 128 (n * 2 ^ Z.of_nat k) (- Z.of_nat k) false = F32.of_Z n.
Proof.
  intros H. destruct n as [|p|p].
  - reflexivity.
  - rewrite <- pshl_val. cbn [binary_normalize]. rewrite normalize_pos, of_Z_pos by exact H. reflexivity.
  - replace (Zneg p * 2 ^ Z.of_nat k) with (Zneg (pshl p k))
      by (rewrite <- !Pos2Z.opp_pos, pshl_val; lia).
    cbn [binary_normalize]. rewrite normalize_pos, of_Z_neg by exact H. reflexivity.
Qed.

Lemma shl_align_val mx ex ez :
  ez <= ex -> Zpos (fst (shl_align mx ex ez)) = Zpos mx * 2 ^ (ex - ez).
Proof.
  intros H. unfold shl_align. destruct (ez - ex) as [|d|d] eqn:E.
  - replace (ex - ez) with 0 by lia. simpl. lia.
  - lia.
  - cbn [fst]. rewrite Pos_iter_xO, pshl_val. f_equal. f_equal. lia.
Qed.

Lemma zmant_val p : Zpos p < two24 -> Zpos (zmant p) = Zpos p * 2 ^ (- zexp p).
Proof.
  intros H. pose proof (digits_le_24 p H). unfold zmant, zexp.
  rewrite pshl_val. f_equal. f_equal. lia.
Qed.

(** The float of a non-zero integer, with its sign, mantissa and exponent. *)
Lemma of_Z_finite (n : Z) :
  n <> 0 -> Z.abs n < two24 ->
  exists m e, F32.of_Z n = S754_finite (n <? 0) m e /\
              -23 <= e <= 0 /\ cond_Zopp (n <? 0) (Zpos m) = n * 2 ^ (- e).
Proof.
  intros Hn H. destruct n as [|p|p]; [congruence| |].
  - exists (zmant p), (zexp p). rewrite of_Z_pos by exact H.
    pose proof (digits_le_24 p H). split; [reflexivity|]. split; [unfold zexp; lia|].
    cbn [Z.ltb Z.compare cond_Zopp]. apply zmant_val, H.
  - exists (zmant p), (zexp p). rewrite of_Z_neg by exact H.
    pose proof (digits_le_24 p H). split; [reflexivity|]. split; [unfold zexp; lia|].
    cbn [Z.ltb Z.compare cond_Zopp]. rewrite zmant_val by exact H.
    rewrite <- Pos2Z.opp_pos. lia.
Qed.

Lemma aligned_val (n : Z) (s : bool) (m : positive) (e ez : Z) :
  cond_Zopp s (Zpos m) = n * 2 ^ (- e) -> ez <= e <= 0 ->
  cond_Zopp s (Zpos (fst (shl_align m e ez))) = n * 2 ^ (- ez).
Proof.
  intros Hv He. rewrite shl_align_val by lia.
  replace (- ez) with (- e + (e - ez)) by lia. rewrite Z.pow_add_r by lia.
  rewrite Z.mul_assoc, <- Hv. destruct s; cbn [cond_Zopp]; lia.
Qed.

(** Sums and differences of integers are exact while they stay below 2^24. *)
Lemma of_Z_add (a b : Z) :
  Z.abs a < two24 -> Z.abs b < two24 -> Z.abs (a + b) < two24 ->
  (F32.of_Z a + F32.of_Z b)%f32 = F32.of_Z (a + b).
Proof.
  intros Ha Hb Hab.
  destruct (Z.eq_dec a 0) as [->|Na]; destruct (Z.eq_dec b 0) as [->|Nb].
  - reflexivity.
  - rewrite Z.add_0_l. destruct (of_Z_finite b Nb Hb) as (m & e & -> & _). reflexivity.
  - rewrite Z.add_0_r. destruct (of_Z_finite a Na Ha) as (m & e & -> & _). reflexivity.
  - destruct (of_Z_finite a Na Ha) as (ma & ea & Ea & Hea & Va).
    destruct (of_Z_finite b Nb Hb) as (mb & eb & Eb & Heb & Vb).
    rewrite Ea, Eb. unfold F32.add. cbn [SFadd].
    rewrite (aligned_val a _ _ _ (Z.min ea eb) Va) by lia.
    rewrite (aligned_val b _ _ _ (Z.min ea eb) Vb) by lia.
    rewrite <- Z.mul_add_distr_r.
    replace (Z.min ea eb) with (- Z.of_nat (Z.to_nat (- Z.min ea eb))) at 2 by lia.
    replace (- Z.min ea eb) with (Z.of_nat (Z.to_nat (- Z.min ea eb))) at 1 by lia.
    apply (normalize_exact _ _ Hab).
Qed.

Lemma of_Z_opp (a : Z) : a <> 0 -> Z.abs a < two24 -> (- F32.of_Z a)%f32 = F32.of_Z (- a).
Proof.
  intros N H. destruct a as [|p|p]; [congruence| |]; cbn [Z.opp].
  - rewrite of_Z_pos, of_Z_neg by exact H. reflexivity.
  - rewrite of_Z_pos, of_Z_neg by exact H. reflexivity.
Qed.

Lemma of_Z_sub (a b : Z) :
  Z.abs a < two24 -> Z.abs b < two24 -> Z.abs (a - b) < two24 ->
  (F32.of_Z a - F32.of_Z b)%f32 = F32.of_Z (a - b).
Proof.
  intros Ha Hb Hab.
  destruct (Z.eq_dec a 0) as [->|Na]; destruct (Z.eq_dec b 0) as [->|Nb].
  - reflexivity.
  - rewrite Z.sub_0_l, <- of_Z_opp by assumption.
    destruct (of_Z_finite b Nb Hb) as (m & e & -> & _). reflexivity.
  - rewrite Z.sub_0_r. destruct (of_Z_finite a Na Ha) as (m & e & -> & _). reflexivity.
  - destruct (of_Z_finite a Na Ha) as (ma & ea & Ea & Hea & Va).
    destruct (of_Z_finite b Nb Hb) as (mb & eb & Eb & Heb & Vb).
    rewrite Ea, Eb. unfold F32.sub. cbn [SFsub].
    rewrite (aligned_val a _ _ _ (Z.min ea eb) Va) by lia.
    rewrite (aligned_val b _ _ _ (Z.min ea eb) Vb) by lia.
    rewrite <- Z.mul_sub_distr_r.
    replace (Z.min ea eb) with (- Z.of_nat (Z.to_nat (- Z.min ea eb))) at 2 by lia.
    replace (- Z.min ea eb) with (Z.of_nat (Z.to_nat (- Z.min ea eb))) at 1 by lia.
    apply (normalize_exact _ _ Hab).
Qed.

Lemma compare_canonical (p q : positive) :
  Zpos p < two24 -> Zpos q < two24 ->
  match zexp p ?= zexp q with
  | Lt => Lt
  | Gt => Gt
  | Eq => Pos.compare_cont Eq (zmant p) (zmant q)
  end = (Zpos p ?= Zpos q).
Proof.
  intros Hp Hq. pose proof (digits_bounds p) as [Lp Up].
  pose proof (digits_bounds q) as [Lq Uq]. unfold zexp, zmant.
  destruct (Z.compare_spec (Zpos (digits2_pos p) - 24) (Zpos (digits2_pos q) - 24)) as [E|E|E].
  - replace (Zpos (digits2_pos q)) with (Zpos (digits2_pos p)) by lia.
    change (Pos.compare_cont Eq ?x ?y) with (Zpos x ?= Zpos y).
    rewrite !pshl_val.
    assert (0 < 2 ^ Z.of_nat (Z.to_nat (24 - Zpos (digits2_pos p))))
      by (apply Z.pow_pos_nonneg; lia).
    destruct (Z.compare_spec (Zpos p) (Zpos q)) as [C|C|C].
    + rewrite C. apply Z.compare_refl.
    + apply Z.compare_lt_iff. nia.
    + apply Z.compare_gt_iff. nia.
  - symmetry. apply Z.compare_lt_iff.
    assert (2 ^ Zpos (digits2_pos p) <= 2 ^ (Zpos (digits2_pos q) - 1))
      by (apply Z.pow_le_mono_r; lia). lia.
  - symmetry. apply Z.compare_gt_iff.
    assert (2 ^ Zpos (digits2_pos q) <= 2 ^ (Zpos (digits2_pos p) - 1))
      by (apply Z.pow_le_mono_r; lia). lia.
Qed.

(** The comparison of binary32 is the comparison of the integers. *)
Lemma of_Z_compare (a b : Z) :
  Z.abs a < two24 -> Z.abs b < two24 ->
  SFcompare (F32.of_Z a) (F32.of_Z b) = Some (a ?= b).
Proof.
  intros Ha Hb.
  destruct a as [|p|p], b as [|q|q]; rewrite ?of_Z_pos, ?of_Z_neg by assumption;
    try reflexivity.
  - cbn [SFcompare]. rewrite compare_canonical by assumption. reflexivity.
  - cbn [SFcompare]. pose proof (compare_canonical p q Ha Hb) as H.
    change (Zneg p ?= Zneg q) with (CompOpp (Zpos p ?= Zpos q)). rewrite <- H.
    destruct (zexp p ?= zexp q); reflexivity.
Qed.

End Integers.

(** ** Sign and magnitude of a rounded number *)

Section Rounding.

Lemma round_aux_sign s m e l : has_sign s (binary_round_aux 24 128 s m e l).
Proof.
  unfold binary_round_aux.
  destruct (shr_fexp 24 128 m e l) as [mrs' e'].
  destruct (shr_fexp 24 128 _ e' loc_Exact) as [mrs'' e''].
  destruct (shr_m mrs''); [reflexivity| |exact I].
  destruct (e'' <=? 128 - 24); reflexivity.
Qed.

Lemma normalize_sign z e :
  has_sign (z <? 0) (binary_normalize 24 128 z e false).
Proof.
  destruct z as [|p|p]; cbn [binary_normalize]; [reflexivity| |];
    unfold binary_round; destruct (shl_align _ _ _) as [mz ez]; apply round_aux_sign.
Qed.

(** [shr_1] halves a non-negative mantissa. *)
Lemma shr_1_bound mrs :
  0 <= shr_m mrs -> 0 <= shr_m (shr_1 mrs) /\ 2 * shr_m (shr_1 mrs) <= shr_m mrs.
Proof.
  destruct mrs as [m r s]. cbn [shr_m]. intros H.
  destruct m as [|[p|p|]|p]; simpl; lia.
Qed.

Lemma shr_iter_bound (n : nat) mrs :
  0 <= shr_m mrs ->
  0 <= shr_m (Nat.iter n shr_1 mrs) /\ 2 ^ Z.of_nat n * shr_m (Nat.iter n shr_1 mrs) <= shr_m mrs.
Proof.
  intros H. induction n as [|n [IH1 IH2]].
  - change (Nat.iter 0 shr_1 mrs) with mrs. change (Z.of_nat 0) with 0. rewrite Z.pow_0_r. lia.
  - change (Nat.iter (S n) shr_1 mrs) with (shr_1 (Nat.iter n shr_1 mrs)).
    destruct (shr_1_bound _ IH1) as [H1 H2]. split; [exact H1|].
    rewrite Nat2Z.inj_succ, Z.pow_succ_r by lia.
    assert (0 <= 2 ^ Z.of_nat n) by (apply Z.pow_nonneg; lia). nia.
Qed.

Lemma Zdigits2_bound m k : 0 <= m -> 0 <= k -> m < 2 ^ k -> Zdigits2 m <= k.
Proof.
  intros H0 Hk H. destruct m as [|p|p]; cbn [Zdigits2]; [lia| |lia].
  pose proof (digits_bounds p) as [Hlo _].
  destruct (Z.le_gt_cases (Zpos (digits2_pos p)) k) as [|Hgt]; [assumption|].
  assert (2 ^ k <= 2 ^ (Zpos (digits2_pos p) - 1)) by (apply Z.pow_le_mono_r; lia). lia.
Qed.

Lemma rne_bound m l : 0 <= m -> m <= round_nearest_even m l <= m + 1.
Proof.
  intros H. destruct l as [|[]]; cbn [round_nearest_even]; try lia.
  destruct (Z.even m); lia.
Qed.

Lemma fexp_ge x : x - 24 <= fexp 24 128 x /\ -149 <= fexp 24 128 x.
Proof. unfold fexp, emin. lia. Qed.

Lemma fexp_le x y : x <= y -> fexp 24 128 x <= fexp 24 128 y.
Proof. unfold fexp, emin. lia. Qed.

Lemma fexp_succ_le D f : D <= 25 -> -149 <= f -> fexp 24 128 (D + f) - f <= 1.
Proof. unfold fexp, emin. lia. Qed.

(** The second shift of [binary_round_aux] moves the exponent by at most
    one. *)
Lemma shr_fexp_second m2 f :
  0 <= m2 <= 2 ^ 24 -> -149 <= f ->
  snd (shr_fexp 24 128 m2 f loc_Exact) <= f + 1.
Proof.
  intros Hm Hf. unfold shr_fexp, shr.
  assert (HD : Zdigits2 m2 <= 25).
  { apply Zdigits2_bound; lia. }
  pose proof (fexp_succ_le _ _ HD Hf) as Hn.
  destruct (fexp 24 128 (Zdigits2 m2 + f) - f) as [|n|n]; cbn [snd]; lia.
Qed.

(** The first shift brings the mantissa below 2^24. *)
Lemma shr_fexp_first (m : positive) e :
  e <= fexp 24 128 (Zpos (digits2_pos m) + e) ->
  let r := shr_fexp 24 128 (Zpos m) e loc_Exact in
  snd r = fexp 24 128 (Zpos (digits2_pos m) + e) /\
  0 <= shr_m (fst r) < 2 ^ 24.
Proof.
  intros He. unfold shr_fexp. cbn [Zdigits2 shr_record_of_loc].
  set (f := fexp 24 128 (Zpos (digits2_pos m) + e)) in *.
  pose proof (fexp_ge (Zpos (digits2_pos m) + e)) as [Hf1 Hf2]. fold f in Hf1, Hf2.
  pose proof (digits_bounds m) as [_ Hm].
  unfold shr. destruct (f - e) as [|n|n] eqn:En; cbn [fst snd shr_m]; try lia.
  - split; [lia|]. split; [lia|].
    assert (2 ^ Zpos (digits2_pos m) <= 2 ^ 24) by (apply Z.pow_le_mono_r; lia). lia.
  - split; [lia|]. rewrite iter_pos_nat.
    destruct (shr_iter_bound (Pos.to_nat n) (Build_shr_record (Zpos m) false false))
      as [H0 H1]; [cbn; lia|]. cbn [shr_m] in H1. split; [exact H0|].
    rewrite positive_nat_Z in H1.
    assert (Hp : 2 ^ Zpos (digits2_pos m) <= 2 ^ Zpos n * 2 ^ 24).
    { rewrite <- Z.pow_add_r by lia. apply Z.pow_le_mono_r; lia. }
    assert (0 < 2 ^ Zpos n) by (apply Z.pow_pos_nonneg; lia). nia.
Qed.

(** The exponent of a rounded number is at most one above the exponent its
    magnitude calls for. *)
Lemma round_aux_exponent s (m : positive) e :
  e <= fexp 24 128 (Zpos (digits2_pos m) + e) ->
  match binary_round_aux 24 128 s (Zpos m) e loc_Exact with
  | S754_finite _ _ e'' => e'' <= fexp 24 128 (Zpos (digits2_pos m) + e) + 1
  | S754_infinity _ => 104 < fexp 24 128 (Zpos (digits2_pos m) + e) + 1
  | _ => True
  end.
Proof.
  intros He. unfold binary_round_aux.
  pose proof (shr_fexp_first m e He) as [H1 H2]. cbv zeta in H1, H2.
  destruct (shr_fexp 24 128 (Zpos m) e loc_Exact) as [mrs' e']. cbn [fst snd] in H1, H2.
  pose proof (rne_bound (shr_m mrs') (loc_of_shr_record mrs') (proj1 H2)) as Hr.
  pose proof (fexp_ge (Zpos (digits2_pos m) + e)) as [_ Hf].
  pose proof (shr_fexp_second (round_nearest_even (shr_m mrs') (loc_of_shr_record mrs')) e') as H3.
  destruct (shr_fexp 24 128 _ e' loc_Exact) as [mrs'' e'']. cbn [snd] in H3.
  destruct (shr_m mrs''); [exact I| |exact I].
  destruct (Z.leb_spec e'' (128 - 24)); lia.
Qed.

Lemma binary_round_exponent s (p : positive) e :
  match binary_round 24 128 s p e with
  | S754_finite _ _ e'' => e'' <= fexp 24 128 (Zpos (digits2_pos p) + e) + 1
  | S754_infinity _ => 104 < fexp 24 128 (Zpos (digits2_pos p) + e) + 1
  | _ => True
  end.
Proof.
  unfold binary_round, shl_align.
  set (f := fexp 24 128 (Zpos (digits2_pos p) + e)).
  destruct (f - e) as [|n|n] eqn:En.
  - apply round_aux_exponent. fold f. lia.
  - apply round_aux_exponent. fold f. lia.
  - pose proof (round_aux_exponent s (Pos.iter xO p n) f) as H.
    rewrite Pos_iter_xO, digits_pshl in H.
    replace (Zpos (digits2_pos p) + Z.of_nat (Pos.to_nat n) + f)
      with (Zpos (digits2_pos p) + e) in H by lia.
    fold f in H. rewrite Pos_iter_xO. apply H. lia.
Qed.

Lemma nonneg_not_below_zero x : has_sign false x -> (x <? F32.of_Z 0)%f32 = false.
Proof. destruct x as [s|s| |s m e]; cbn [has_sign]; intros H; subst; reflexivity. Qed.

Lemma neg_not_above x m e : has_sign true x -> (x >? S754_finite false m e)%f32 = false.
Proof. destruct x as [s|s| |s m' e']; cbn [has_sign]; intros H; subst; reflexivity. Qed.

(** A positive number below 32 is not above 600. *)
Lemma small_not_above (p : positive) (ez : Z) :
  Zpos p < 2 ^ (5 - ez) -> ez <= 5 ->
  (binary_round 24 128 false p ez >? F32.of_Z windowHeight)%f32 = false.
Proof.
  intros Hp Hez.
  assert (Hd : Zpos (digits2_pos p) + ez <= 5).
  { pose proof (Zdigits2_bound (Zpos p) (5 - ez)) as H. cbn [Zdigits2] in H. lia. }
  pose proof (fexp_le _ _ Hd) as Hf. change (fexp 24 128 5) with (-19) in Hf.
  pose proof (binary_round_exponent false p ez) as He.
  assert (Hs : has_sign false (binary_round 24 128 false p ez)).
  { unfold binary_round. destruct (shl_align _ _ _) as [mz e1]. apply round_aux_sign. }
  destruct (binary_round 24 128 false p ez) as [s|s| |s m e]; cbn [has_sign] in Hs;
    subst; try reflexivity; [lia|].
  unfold F32.gtb. change (F32.of_Z windowHeight) with (S754_finite false 9830400 (-14)).
  cbn [SFcompare].
  assert (E : (e ?= -14) = Lt) by (apply Z.compare_lt_iff; lia).
  rewrite E. reflexivity.
Qed.

(** With the radius of the ball, an ordinate whose bottom edge is past the
    bottom of the window has its top edge inside it. *)
Lemma bottom_out_top_in (y : float) :
  (y + ballRadius >? F32.of_Z windowHeight)%f32 = true ->
  (y - ballRadius <? F32.of_Z 0)%f32 = false.
Proof.
  change ballRadius with (S754_finite false 10485760 (-20)).
  unfold F32.add, F32.sub.
  destruct y as [s|s| |s m e].
  1-3: try (destruct s); cbn; congruence.
  cbn [SFadd SFsub]. set (ez := Z.min e (-20)).
  set (A := cond_Zopp s (Zpos (fst (shl_align m e ez)))).
  assert (T : cond_Zopp false (Zpos (fst (shl_align 10485760 (-20) ez)))
              = 10485760 * 2 ^ (-20 - ez))
    by (cbn [cond_Zopp]; rewrite shl_align_val by lia; reflexivity).
  rewrite T. set (t := 10485760 * 2 ^ (-20 - ez)).
  assert (Ht : 2 * t < 2 ^ (5 - ez)).
  { unfold t. replace (5 - ez) with (25 + (-20 - ez)) by lia.
    rewrite Z.pow_add_r by lia.
    assert (0 < 2 ^ (-20 - ez)) by (apply Z.pow_pos_nonneg; lia). lia. }
  intros Hadd.
  destruct (Z.ltb_spec (A - t) 0) as [Hneg|Hpos].
  - (* the top would be above 0 only if the bottom is not past 600 *)
    exfalso. destruct (A + t) as [|p|p] eqn:Ez.
    + cbn in Hadd. discriminate.
    + cbn [binary_normalize] in Hadd. rewrite small_not_above in Hadd by lia. discriminate.
    + pose proof (normalize_sign (Zneg p) ez) as Hs. cbn [Z.ltb Z.compare] in Hs.
      change (F32.of_Z windowHeight) with (S754_finite false 9830400 (-14)) in Hadd.
      rewrite (neg_not_above _ _ _ Hs) in Hadd. discriminate.
  - apply nonneg_not_below_zero.
    pose proof (normalize_sign (A - t) ez) as Hs.
    destruct (Z.ltb_spec (A - t) 0); [lia|exact Hs].
Qed.

End Rounding.

(** ** The constants and two runs of the game *)

(** [0.4f] is 4/10 rounded to binary32. *)
Example ballVelocity_four_tenths : ballVelocity = (F32.of_Z 4 / F32.of_Z 10)%f32.
Proof. reflexivity. Qed.

(** The first brick of the wall is at (85, 46), the last at (715, 115). *)
Example wall_corners :
  length GameM.wall = 44%nat /\
  hd_error GameM.wall = Some (BrickM.make (F32.of_Z 85) (F32.of_Z 46)) /\
  last GameM.wall (BrickM.make (F32.of_Z 0) (F32.of_Z 0)) =
    BrickM.make (F32.of_Z 715) (F32.of_Z 115).
Proof. repeat split. Qed.

(** One step of the initial game moves the ball from (400, 300) to
    (399.6, 299.6), in binary32. *)
Example first_step_ball :
  c_position (b_shape (ball (GameM.simStep noKeys GameM.make))) =
    mkVector2f (S754_finite false 13094093 (-15)) (S754_finite false 9817293 (-15)).
Proof. reflexivity. Qed.

(** ** Comparisons of binary32 *)

Section Compare.

Lemma SFcompare_antisym (a b : float) :
  SFcompare b a = option_map CompOpp (SFcompare a b).
Proof.
  destruct a as [sa|sa| |sa ma ea], b as [sb|sb| |sb mb eb]; simpl;
    try reflexivity;
    try (destruct sa; reflexivity); try (destruct sb; reflexivity);
    try (destruct sa, sb; reflexivity).
  destruct sa, sb; simpl; try reflexivity;
    rewrite (Z.compare_antisym ea eb); destruct (ea ?= eb); simpl;
    try reflexivity;
    rewrite (Pos.compare_cont_antisym ma mb Eq); simpl;
    try rewrite CompOpp_involutive; reflexivity.
Qed.

Lemma geb_leb (a b : float) : (a >=? b)%f32 = (b <=? a)%f32.
Proof.
  unfold F32.geb, F32.leb. rewrite (SFcompare_antisym a b).
  destruct (SFcompare a b) as [[]|]; reflexivity.
Qed.

Lemma gtb_ltb (a b : float) : (a >? b)%f32 = (b <? a)%f32.
Proof.
  unfold F32.gtb, F32.ltb. rewrite (SFcompare_antisym a b).
  destruct (SFcompare a b) as [[]|]; reflexivity.
Qed.


Lemma eqb_not_ltb (a b : float) : F32.eqb a b = true -> (a <? b)%f32 = false.
Proof.
  unfold F32.eqb, F32.ltb. destruct (SFcompare a b) as [[]|]; congruence.
Qed.

Lemma eqb_geb (a b : float) : F32.eqb a b = true -> (a >=? b)%f32 = true.
Proof.
  unfold F32.eqb, F32.geb. destruct (SFcompare a b) as [[]|]; congruence.
Qed.

Lemma eqb_leb (a b : float) : F32.eqb a b = true -> (a <=? b)%f32 = true.
Proof.
  unfold F32.eqb, F32.leb. destruct (SFcompare a b) as [[]|]; congruence.
Qed.

Lemma SFcompare_nan (a b : float) :
  SFcompare a b = None -> F32.is_nan a = true \/ F32.is_nan b = true.
Proof.
  destruct a as [sa|sa| |sa ma ea], b as [sb|sb| |sb mb eb]; simpl;
    try discriminate; auto.
Qed.




Lemma opp_involutive (a : float) : (- - a)%f32 = a.
Proof. destruct a as [s|s| |s m e]; simpl; rewrite ?negb_involutive; reflexivity. Qed.

Lemma abs_opp (a : float) : F32.abs (- a)%f32 = F32.abs a.
Proof. destruct a; reflexivity. Qed.

End Compare.

(** ** The intersection predicate *)

(** C9. [isIntersecting] gives the same answer when its arguments are
    exchanged, and its comparisons are inclusive: two entities whose extents
    are equal at a vertical or at a horizontal boundary, and overlap
    otherwise, intersect. *)
Theorem isIntersecting_symmetric_inclusive :
  forall (T1 T2 : Type) (B1 : Bounded T1) (B2 : Bounded T2) (mA : T1) (mB : T2),
    isIntersecting mA mB = isIntersecting mB mA /\
    (F32.eqb (right mA) (left mB) = true ->
     (left mA <=? right mB)%f32 = true ->
     (bottom mA >=? top mB)%f32 = true ->
     (top mA <=? bottom mB)%f32 = true ->
     isIntersecting mA mB = true) /\
    (F32.eqb (bottom mA) (top mB) = true ->
     (right mA >=? left mB)%f32 = true ->
     (left mA <=? right mB)%f32 = true ->
     (top mA <=? bottom mB)%f32 = true ->
     isIntersecting mA mB = true).
Proof.
  intros T1 T2 B1 B2 mA mB. unfold isIntersecting. repeat split.
  - rewrite !geb_leb.
    rewrite <- (geb_leb (right mB) (left mA)), <- (geb_leb (bottom mB) (top mA)).
    destruct (left mB <=? right mA)%f32, (right mB >=? left mA)%f32,
      (top mB <=? bottom mA)%f32, (bottom mB >=? top mA)%f32; reflexivity.
  - intros Ht H1 H2 H3. rewrite (eqb_geb _ _ Ht), H1, H2, H3. reflexivity.
  - intros Ht H1 H2 H3. rewrite (eqb_geb _ _ Ht), H1, H2, H3. reflexivity.
Qed.

(** Two bricks of the wall side by side, 60 apart: they share an edge. *)
Lemma isIntersecting_symmetric_inclusive_witness :
  let a := BrickM.make (F32.of_Z 100) (F32.of_Z 50) in
  let b := BrickM.make (F32.of_Z 160) (F32.of_Z 50) in
  F32.eqb (right a) (left b) = true /\ isIntersecting a b = true.
Proof.
  intros a b. split; [reflexivity|].
  destruct (isIntersecting_symmetric_inclusive Brick Brick _ _ a b) as (_ & H & _).
  apply H; reflexivity.
Defined.

(** ** The speed of the ball *)

Section BallSpeed.

Lemma abs_ballVelocity (v : float) :
  F32.abs v = ballVelocity -> v = ballVelocity \/ v = (- ballVelocity)%f32.
Proof.
  unfold ballVelocity. destruct v as [s|s| |s m e]; simpl; try discriminate.
  intros H. injection H as -> ->. destruct s; auto.
Qed.

Lemma sameUpToSign_speed (v w : float) :
  F32.abs v = ballVelocity -> F32.abs w = ballVelocity -> sameUpToSign v w.
Proof.
  intros Hv Hw. unfold sameUpToSign.
  destruct (abs_ballVelocity _ Hv) as [-> | ->],
           (abs_ballVelocity _ Hw) as [-> | ->]; auto.
Qed.

Lemma update_speedOK (b : Ball) (mFT : float) :
  speedOK b -> speedOK (snd (BallM.update b mFT)).
Proof.
  unfold speedOK, BallM.update. intros [Hx Hy].
  repeat match goal with
         | |- context [if ?c then _ else _] => destruct c
         end; simpl; rewrite ?abs_opp; auto.
Qed.

Lemma testCollisionPaddle_speedOK (p : Paddle) (b : Ball) :
  speedOK b -> speedOK (testCollisionPaddle p b).
Proof.
  unfold speedOK, testCollisionPaddle. intros [Hx Hy].
  destruct (negb (isIntersecting p b)); [auto|].
  destruct (_ <? _)%f32; simpl; auto.
Qed.

Lemma testCollisionBrick_speedOK (k : Brick) (b : Ball) :
  speedOK b -> speedOK (snd (testCollisionBrick k b)).
Proof.
  unfold speedOK, testCollisionBrick. intros [Hx Hy].
  destruct (negb (isIntersecting k b)); [auto|].
  destruct (_ <? _)%f32; simpl;
    [destruct (ballFromLeft k b) | destruct (ballFromTop k b)]; auto.
Qed.

Lemma resetBall_speedOK (b : Ball) : speedOK b -> speedOK (BallM.resetBall b).
Proof. unfold speedOK, BallM.resetBall. intros [Hx Hy]. simpl. auto. Qed.

Lemma make_speedOK (mX mY : float) : speedOK (BallM.make mX mY).
Proof. split; reflexivity. Qed.

Lemma ballOp_speedOK (b b' : Ball) : ballOp b b' -> speedOK b -> speedOK b'.
Proof.
  intros [b0 mFT | b0 p | b0 k | b0];
    auto using update_speedOK, testCollisionPaddle_speedOK,
               testCollisionBrick_speedOK, resetBall_speedOK.
Qed.

Lemma ballReachable_speedOK (b : Ball) : ballReachable b -> speedOK b.
Proof.
  induction 1 as [mX mY | b b' _ IH Hop].
  - apply make_speedOK.
  - exact (ballOp_speedOK _ _ Hop IH).
Qed.

(** The ball of the game only goes through these operations. *)
Lemma testBricks_ballReachable (bs : list Brick) :
  forall b, ballReachable b -> ballReachable (snd (GameM.testBricks bs b)).
Proof.
  induction bs as [|k bs IH]; intros b Hb; [exact Hb|].
  cbn [GameM.testBricks].
  pose proof (reach_op _ _ Hb (op_brick b k)) as Hk.
  destruct (testCollisionBrick k b) as [k' b1]. cbn [snd] in Hk.
  specialize (IH b1 Hk). destruct (GameM.testBricks bs b1) as [bs' b2]. exact IH.
Qed.

Lemma simStep_ballReachable (k : Keys) (g : Game) :
  ballReachable (ball g) -> ballReachable (ball (GameM.simStep k g)).
Proof.
  intros Hb. unfold GameM.simStep.
  pose proof (reach_op _ _ Hb (op_update (ball g) ftStep)) as H1.
  pose proof (reach_op _ _ H1 (op_paddle _ (PaddleM.update k (paddle g) ftStep))) as H2.
  pose proof (testBricks_ballReachable (bricks g) _ H2) as H3.
  destruct (GameM.testBricks _ _) as [bs b']. exact H3.
Qed.

Lemma inputPhase_ballReachable (evs : list Event) (k : Keys) (g : Game) :
  ballReachable (ball g) -> ballReachable (ball (GameM.inputPhase evs k g)).
Proof.
  intros Hb. unfold GameM.inputPhase.
  assert (Hp : forall g0, ball (GameM.pollEvents evs g0) = ball g0).
  { induction evs as [|e evs IH]; intros g0; [reflexivity|].
    cbn [GameM.pollEvents]. destruct (windowOpen g0); [|reflexivity].
    rewrite IH. destruct (isClosed e); reflexivity. }
  destruct (keySpace k), (keyEscape k);
    cbn [ball GameM.setBall GameM.setRunning]; rewrite Hp;
    try exact Hb; exact (reach_op _ _ Hb (op_reset _)).
Qed.

Lemma simSteps_ballReachable (n : nat) (kb : nat -> Keys) :
  forall i g, ballReachable (ball g) -> ballReachable (ball (simSteps n kb i g)).
Proof.
  induction n as [|n IH]; intros i g Hb; [exact Hb|].
  cbn [simSteps]. apply IH, simStep_ballReachable, Hb.
Qed.

End BallSpeed.

(** C1. In every reachable state of the ball, and across each operation that
    writes it ([Ball::update], the two [testCollision], [resetBall]), the
    magnitude of each component of the velocity is [ballVelocity], before and
    after; the component after is the component before up to its sign. *)
Theorem ball_speed_invariant :
  forall b b' : Ball,
    ballReachable b -> ballOp b b' ->
    speedOK b /\ speedOK b' /\
    sameUpToSign (vx (b_velocity b)) (vx (b_velocity b')) /\
    sameUpToSign (vy (b_velocity b)) (vy (b_velocity b')).
Proof.
  intros b b' Hr Hop.
  pose proof (ballReachable_speedOK _ Hr) as Hb.
  pose proof (ballOp_speedOK _ _ Hop Hb) as Hb'.
  destruct Hb as [Hx Hy], Hb' as [Hx' Hy'].
  repeat split; auto using sameUpToSign_speed.
Qed.

Lemma ball_speed_invariant_witness :
  let b := BallM.make (F32.of_Z 400) (F32.of_Z 300) in
  let b' := snd (BallM.update b ftStep) in
  speedOK b /\ speedOK b' /\
  sameUpToSign (vx (b_velocity b)) (vx (b_velocity b')) /\
  sameUpToSign (vy (b_velocity b)) (vy (b_velocity b')).
Proof.
  intros b b'. apply (ball_speed_invariant b b').
  - apply reach_make.
  - apply op_update.
Defined.

(** ** Collision resolution *)

Section Resolution.



End Resolution.



(** C10. When the two kept overlaps are equal, the vertical component is the
    one written, with the sign of the entry side; the horizontal component
    is untouched. *)
Theorem testCollisionBrick_tie_vertical :
  forall (k : Brick) (b : Ball),
    isIntersecting k b = true ->
    F32.eqb (minOverlapX k b) (minOverlapY k b) = true ->
    testCollisionBrick k b =
      (BrickM.setDestroyed k true, BallM.setVelocityY b (entryVelocityY k b)) /\
    vx (b_velocity (snd (testCollisionBrick k b))) = vx (b_velocity b) /\
    vy (b_velocity (snd (testCollisionBrick k b))) = entryVelocityY k b.
Proof.
  intros k b H E. unfold testCollisionBrick.
  rewrite H, (eqb_not_ltb _ _ E). cbn [negb]. repeat split.
Qed.

(** A ball of radius 10 at (65, 35) against the brick at (100, 50): the
    overlap is 5 on both axes. *)
Lemma testCollisionBrick_tie_vertical_witness :
  let k := BrickM.make (F32.of_Z 100) (F32.of_Z 50) in
  let b := BallM.setVelocityX (BallM.make (F32.of_Z 65) (F32.of_Z 35)) ballVelocity in
  minOverlapX k b = F32.of_Z 5 /\ minOverlapY k b = F32.of_Z 5 /\
  b_velocity (snd (testCollisionBrick k b)) =
    mkVector2f ballVelocity (- ballVelocity)%f32.
Proof.
  intros k b. split; [reflexivity|]. split; [reflexivity|].
  destruct (testCollisionBrick_tie_vertical k b eq_refl eq_refl) as (_ & Hx & Hy).
  destruct (b_velocity (snd (testCollisionBrick k b))) as [wx wy].
  simpl in Hx, Hy. rewrite Hx, Hy. reflexivity.
Defined.

(** C5. Paddle and ball: without intersection nothing changes.  With it the
    vertical velocity becomes the upward constant and the horizontal one
    points left when the centre of the ball is left of the centre of the
    paddle, right otherwise; with the paddle at x = 400 and the ball at
    x = 380 the velocity becomes (-0.4, -0.4). *)
Theorem testCollisionPaddle_resolution :
  forall (p : Paddle) (b : Ball),
    (isIntersecting p b = false -> testCollisionPaddle p b = b) /\
    (isIntersecting p b = true ->
     let b' := testCollisionPaddle p b in
     b_shape b' = b_shape b /\
     vy (b_velocity b') = (- ballVelocity)%f32 /\
     ((BallM.x b <? PaddleM.x p)%f32 = true ->
      vx (b_velocity b') = (- ballVelocity)%f32) /\
     ((BallM.x b <? PaddleM.x p)%f32 = false ->
      vx (b_velocity b') = ballVelocity) /\
     (PaddleM.x p = F32.of_Z 400 -> BallM.x b = F32.of_Z 380 ->
      b_velocity b' = mkVector2f (- ballVelocity)%f32 (- ballVelocity)%f32)).
Proof.
  intros p b. split.
  - intros H. unfold testCollisionPaddle. rewrite H. reflexivity.
  - intros H. unfold testCollisionPaddle. rewrite H. cbn [negb].
    change (BallM.x (BallM.setVelocityY b (- ballVelocity)%f32)) with (BallM.x b).
    repeat split.
    + destruct (_ <? _)%f32; reflexivity.
    + destruct (_ <? _)%f32; reflexivity.
    + intros E. rewrite E. reflexivity.
    + intros E. rewrite E. reflexivity.
    + intros Hp Hb. rewrite Hp, Hb. reflexivity.
Qed.

(** The paddle of the game moved to nothing (x = 400, y = 550) and a ball
    resting on it at (380, 535). *)
Lemma testCollisionPaddle_resolution_witness :
  let p := PaddleM.make (F32.of_Z 400) (F32.of_Z 550) in
  let b := BallM.setVelocityY (BallM.make (F32.of_Z 380) (F32.of_Z 535)) ballVelocity in
  isIntersecting p b = true /\
  b_velocity (testCollisionPaddle p b) =
    mkVector2f (- ballVelocity)%f32 (- ballVelocity)%f32.
Proof.
  intros p b. split; [reflexivity|].
  destruct (testCollisionPaddle_resolution p b) as [_ H].
  destruct (H eq_refl) as (_ & _ & _ & _ & Hs).
  exact (Hs eq_refl eq_refl).
Defined.

(** ** The lifecycle of the bricks *)

Section Bricks.

Lemma isIntersecting_brick_shape (k k' : Brick) (b b' : Ball) :
  k_shape k' = k_shape k -> b_shape b' = b_shape b ->
  isIntersecting k' b' = isIntersecting k b.
Proof.
  intros Hk Hb. unfold isIntersecting. simpl.
  unfold BallM.left, BallM.right, BallM.top, BallM.bottom, BallM.x, BallM.y.
  rewrite Hk, Hb. reflexivity.
Qed.

Lemma testCollisionBrick_ball_shape (k : Brick) (b : Ball) :
  b_shape (snd (testCollisionBrick k b)) = b_shape b.
Proof.
  unfold testCollisionBrick.
  destruct (negb (isIntersecting k b)); [reflexivity|].
  destruct (_ <? _)%f32; reflexivity.
Qed.

Lemma testCollisionBrick_brick (k : Brick) (b : Ball) :
  fst (testCollisionBrick k b) =
    if isIntersecting k b then BrickM.setDestroyed k true else k.
Proof.
  unfold testCollisionBrick.
  destruct (isIntersecting k b); cbn [negb]; [|reflexivity].
  destruct (_ <? _)%f32; reflexivity.
Qed.

Lemma testBricks_bricks (bs : list Brick) :
  forall b b0 : Ball,
    b_shape b = b_shape b0 ->
    fst (GameM.testBricks bs b) =
      map (fun k => if isIntersecting k b0 then BrickM.setDestroyed k true else k) bs.
Proof.
  induction bs as [|k bs IH]; intros b b0 Hb; [reflexivity|].
  cbn [GameM.testBricks map].
  pose proof (testCollisionBrick_brick k b) as Hk.
  pose proof (testCollisionBrick_ball_shape k b) as Hs.
  destruct (testCollisionBrick k b) as [k' b'] eqn:E. cbn [fst snd] in Hk, Hs.
  specialize (IH b' b0 (eq_trans Hs Hb)).
  destruct (GameM.testBricks bs b') as [bs' b''] eqn:E'. cbn [fst] in IH |- *.
  rewrite Hk, IH, (isIntersecting_brick_shape k k b0 b eq_refl Hb). reflexivity.
Qed.

Lemma simStep_bricks (kb : Keys) (g : Game) :
  bricks (GameM.simStep kb g) =
    filter (fun k => negb (destroyed k) && negb (isIntersecting k (ballAtBricks kb g)))
           (bricks g).
Proof.
  unfold GameM.simStep.
  pose proof (testBricks_bricks (bricks g) (ballAtBricks kb g) (ballAtBricks kb g) eq_refl) as H.
  fold (ballAtBricks kb g).
  destruct (GameM.testBricks (bricks g) (ballAtBricks kb g)) as [bs b'].
  cbn [fst] in H. cbn [bricks GameM.setEntities]. rewrite H.
  unfold GameM.eraseDestroyed. generalize (bricks g) as l.
  induction l as [|k l IH]; [reflexivity|]. cbn [map filter].
  destruct (isIntersecting k (ballAtBricks kb g)); cbn [destroyed BrickM.setDestroyed negb].
  - rewrite andb_false_r. exact IH.
  - rewrite andb_true_r. destruct (negb (destroyed k)); [f_equal|]; exact IH.
Qed.

End Bricks.

(** C2. A brick marked destroyed in a simulation step is gone from the
    collection when the step ends: what the step leaves, and so what the next
    step tests, holds no destroyed brick and no brick at the place of one
    that the ball intersected in this step; it is the bricks that were live
    and not intersected, in their order. *)
Theorem destroyed_bricks_removed_within_step :
  forall (kb : Keys) (g : Game),
    (forall k', In k' (bricks (GameM.simStep kb g)) -> destroyed k' = false) /\
    (forall k, In k (bricks g) -> isIntersecting k (ballAtBricks kb g) = true ->
       forall k', In k' (bricks (GameM.simStep kb g)) -> k_shape k' <> k_shape k) /\
    bricks (GameM.simStep kb g) =
      filter (fun k => negb (destroyed k) && negb (isIntersecting k (ballAtBricks kb g)))
             (bricks g).
Proof.
  intros kb g. rewrite simStep_bricks. repeat split.
  - intros k' Hin. apply filter_In in Hin. destruct Hin as [_ H].
    apply andb_prop in H. destruct H as [H _]. now apply negb_true_iff in H.
  - intros k Hk Hhit k' Hin Hs. apply filter_In in Hin. destruct Hin as [_ H].
    apply andb_prop in H. destruct H as [_ H]. apply negb_true_iff in H.
    rewrite (isIntersecting_brick_shape k k' _ _ Hs eq_refl) in H. congruence.
Qed.

(** The game with its ball just under the first brick of the wall, which is
    at (85, 46): the next step moves the ball into the brick. *)
Lemma destroyed_bricks_removed_within_step_witness :
  let g := GameM.setBall GameM.make (BallM.make (F32.of_Z 85) (F32.of_Z 66)) in
  let k := BrickM.make (F32.of_Z 85) (F32.of_Z 46) in
  In k (bricks g) /\ isIntersecting k (ballAtBricks noKeys g) = true /\
  forall k', In k' (bricks (GameM.simStep noKeys g)) -> k_shape k' <> k_shape k.
Proof.
  intros g k.
  assert (Hin : In k (bricks g)) by (left; reflexivity).
  assert (Hhit : isIntersecting k (ballAtBricks noKeys g) = true) by reflexivity.
  split; [exact Hin|]. split; [exact Hhit|].
  destruct (destroyed_bricks_removed_within_step noKeys g) as (_ & H & _).
  exact (H k Hin Hhit).
Defined.

(** ** The bottom of the playfield *)

(** C7. When the moved ball has its bottom edge past the bottom of the
    playfield, [Ball::update] does not bounce: the ball keeps the position it
    moved to and its vertical velocity is what it was.  For any ball, the
    vertical velocity after [update] is the one before, negated exactly when
    the top edge is above 0. *)
Theorem update_no_bounce_at_bottom :
  forall (b : Ball) (mFT : float),
    let m := BallM.moved b mFT in
    let b' := snd (BallM.update b mFT) in
    (c_radius (b_shape b) = ballRadius ->
     (BallM.bottom m >? F32.of_Z windowHeight)%f32 = true ->
     b_shape b' = b_shape m /\
     c_position (b_shape m) = movePos (c_position (b_shape b)) (scale (b_velocity b) mFT) /\
     (BallM.bottom b' >? F32.of_Z windowHeight)%f32 = true /\
     vy (b_velocity b') = vy (b_velocity b)) /\
    vy (b_velocity b') =
      (if (BallM.top m <? F32.of_Z 0)%f32
       then (- vy (b_velocity b))%f32 else vy (b_velocity b)).
Proof.
  intros b mFT m b'.
  assert (Hshape : b_shape b' = b_shape m).
  { unfold b', BallM.update. fold m.
    repeat match goal with
           | |- context [if ?c then _ else _] => destruct c
           end; reflexivity. }
  assert (Hvy : vy (b_velocity b') =
                (if (BallM.top m <? F32.of_Z 0)%f32
                 then (- vy (b_velocity b))%f32 else vy (b_velocity b))).
  { unfold b', BallM.update. fold m.
    assert (Hm : BallM.setVelocityY m (vy (b_velocity m)) = m)
      by (destruct m as [sh [wx wy]]; reflexivity).
    rewrite Hm.
    destruct (BallM.bottom m >? F32.of_Z windowHeight)%f32;
      destruct ((BallM.left m <? F32.of_Z 0) || (BallM.right m >? F32.of_Z windowWidth))%f32;
      cbn [snd];
      match goal with
      | |- context [BallM.top ?u] => change (BallM.top u) with (BallM.top m)
      end;
      destruct (BallM.top m <? F32.of_Z 0)%f32; reflexivity. }
  split; [|exact Hvy]. intros Hr Hbot.
  split; [exact Hshape|]. split; [reflexivity|]. split.
  - unfold BallM.bottom, BallM.y in *. rewrite Hshape. exact Hbot.
  - rewrite Hvy. unfold BallM.bottom, BallM.top in *.
    change (c_radius (b_shape m)) with (c_radius (b_shape b)) in *.
    rewrite Hr in *. rewrite (bottom_out_top_in _ Hbot). reflexivity.
Qed.

(** The ball at (400, 595) moving down: its bottom edge is at 605.4 after
    the move, and it keeps moving down. *)
Lemma update_no_bounce_at_bottom_witness :
  let b := BallM.setVelocityY (BallM.make (F32.of_Z 400) (F32.of_Z 595)) ballVelocity in
  (BallM.bottom (BallM.moved b ftStep) >? F32.of_Z windowHeight)%f32 = true /\
  vy (b_velocity (snd (BallM.update b ftStep))) = ballVelocity.
Proof.
  intros b.
  assert (H : (BallM.bottom (BallM.moved b ftStep) >? F32.of_Z windowHeight)%f32 = true)
    by reflexivity.
  split; [exact H|].
  destruct (update_no_bounce_at_bottom b ftStep) as [Hb _].
  destruct (Hb eq_refl H) as (_ & _ & _ & Hy). exact Hy.
Defined.


Section IntegerOrder.

Variables a b : Z.
Hypothesis Ha : Z.abs a < two24.
Hypothesis Hb : Z.abs b < two24.

Lemma of_Z_ltb : (F32.of_Z a <? F32.of_Z b)%f32 = (a <? b).
Proof.
  unfold F32.ltb, Z.ltb. rewrite of_Z_compare by assumption.
  destruct (a ?= b); reflexivity.
Qed.

Lemma of_Z_leb : (F32.of_Z a <=? F32.of_Z b)%f32 = (a <=? b).
Proof.
  unfold F32.leb, Z.leb. rewrite of_Z_compare by assumption.
  destruct (a ?= b); reflexivity.
Qed.

Lemma of_Z_gtb : (F32.of_Z a >? F32.of_Z b)%f32 = (a >? b).
Proof.
  unfold F32.gtb, Z.gtb. rewrite of_Z_compare by assumption.
  destruct (a ?= b); reflexivity.
Qed.

Lemma of_Z_geb : (F32.of_Z a >=? F32.of_Z b)%f32 = (a >=? b).
Proof.
  unfold F32.geb, Z.geb. rewrite of_Z_compare by assumption.
  destruct (a ?= b); reflexivity.
Qed.

End IntegerOrder.

(** ** The paddle stays in the window *)

Section PaddleBounds.

Lemma two24_gt (n : Z) : -1000 <= n <= 1000 -> Z.abs n < two24.
Proof. unfold two24. lia. Qed.

Lemma halfWidth_30 : (paddleWidth / F32.of_Z 2)%f32 = F32.of_Z 30.
Proof. reflexivity. Qed.

Lemma velocity_times_step (v : Z) :
  -1 <= v <= 1 -> (F32.of_Z v * ftStep)%f32 = F32.of_Z v.
Proof.
  intros H. assert (v = -1 \/ v = 0 \/ v = 1) as [-> | [-> | ->]] by lia; reflexivity.
Qed.

Lemma paddle_make_inv : paddleInv (paddle GameM.make).
Proof.
  exists 400, 0. repeat split; lia.
Qed.

Lemma paddle_update_inv (k : Keys) (p : Paddle) :
  paddleInv p -> paddleInv (PaddleM.update k p ftStep).
Proof.
  intros (n & v & Hs & Hv & Hn & Hv1 & Hnv).
  destruct p as [sh vel]. cbn [p_shape p_velocity] in Hs, Hv. subst sh vel.
  unfold PaddleM.update, PaddleM.moved, movePos, scale.
  cbn [p_shape p_velocity r_position r_size vx vy].
  rewrite velocity_times_step by assumption.
  rewrite of_Z_add by (apply two24_gt; unfold windowHeight; lia).
  replace (F32.of_Z (windowHeight - 50) + F32.of_Z 0 * ftStep)%f32
    with (F32.of_Z (windowHeight - 50)) by reflexivity.
  cbn [left right Rectangle_Bounded p_shape].
  unfold RectangleM.left, RectangleM.right, RectangleM.x.
  cbn [r_position r_size vx vy]. rewrite halfWidth_30.
  rewrite of_Z_sub, of_Z_add by (apply two24_gt; lia).
  rewrite of_Z_gtb, of_Z_ltb by (apply two24_gt; unfold windowWidth; lia).
  unfold PaddleM.setVelocityX. cbn [p_shape p_velocity vy].
  destruct (keyLeft k && (n + v - 30 >? 0)) eqn:EL.
  - apply andb_prop in EL. destruct EL as [_ EL].
    exists (n + v), (-1). apply Z.gtb_lt in EL. repeat split; lia.
  - destruct (keyRight k && (n + v + 30 <? windowWidth)) eqn:ER.
    + apply andb_prop in ER. destruct ER as [_ ER].
      exists (n + v), 1. apply Z.ltb_lt in ER. unfold windowWidth in ER.
      repeat split; lia.
    + exists (n + v), 0. repeat split; lia.
Qed.

Lemma paddleAfter_inv (ks : list Keys) :
  forall p, paddleInv p -> paddleInv (paddleAfter ks p).
Proof.
  induction ks as [|k ks IH]; intros p Hp; [exact Hp|].
  apply (IH _ (paddle_update_inv k p Hp)).
Qed.

Lemma paddleInv_bounds (p : Paddle) : paddleInv p -> inWindow p.
Proof.
  intros (n & v & Hs & Hv & Hn & Hv1 & Hnv). unfold inWindow.
  destruct p as [sh vel]. cbn [p_shape p_velocity] in Hs, Hv. subst sh vel.
  cbn [left right Paddle_Bounded Rectangle_Bounded p_shape].
  unfold PaddleM.x, PaddleM.y, RectangleM.left, RectangleM.right, RectangleM.x, RectangleM.y.
  cbn [p_shape r_position r_size vx vy]. rewrite halfWidth_30.
  rewrite (of_Z_sub windowWidth 30), of_Z_sub, of_Z_add
    by (apply two24_gt; unfold windowWidth; lia).
  rewrite !of_Z_leb, of_Z_geb by (apply two24_gt; unfold windowWidth; lia).
  unfold windowWidth. repeat split; try (apply Z.leb_le; lia).
  apply Z.geb_le. lia.
Qed.

Lemma simSteps_paddle (n : nat) (kb : nat -> Keys) :
  forall i g, paddleInv (paddle g) -> paddleInv (paddle (simSteps n kb i g)).
Proof.
  induction n as [|n IH]; intros i g Hg; [exact Hg|].
  cbn [simSteps]. apply IH. unfold GameM.simStep.
  destruct (GameM.testBricks _ _) as [bs mBall]. cbn [paddle GameM.setEntities].
  apply paddle_update_inv, Hg.
Qed.

End PaddleBounds.

(** C6. After any sequence of updates of the paddle of the game, under any
    keyboard states, the paddle is inside the window: its abscissa is
    between half its width and the window width less half its width, its
    left edge is not below 0, its right edge not beyond the window width, and
    its ordinate is the one it was created with.  The same holds of the
    paddle after any number of simulation steps of the game. *)
Theorem paddle_stays_in_window :
  forall (ks : list Keys) (n : nat) (kb : nat -> Keys) (i : nat),
    inWindow (paddleAfter ks (paddle GameM.make)) /\
    inWindow (paddle (simSteps n kb i GameM.make)).
Proof.
  intros ks n kb i. split; apply paddleInv_bounds.
  - apply paddleAfter_inv, paddle_make_inv.
  - apply simSteps_paddle, paddle_make_inv.
Qed.

(** The left key held for 400 updates: the paddle stops at the left wall. *)
Example paddle_at_left_wall :
  let p := paddleAfter (repeat (mkKeys true false false false) 400) (paddle GameM.make) in
  PaddleM.x p = F32.of_Z 30 /\ left p = F32.of_Z 0.
Proof. vm_compute. split; reflexivity. Qed.


(** ** The fixed-step scheduler *)

Section Scheduler.

Lemma simStep_withClock (k : Keys) (g : Game) (a b : float) :
  GameM.simStep k (withClock g a b) = withClock (GameM.simStep k g) a b.
Proof.
  unfold GameM.simStep, withClock. cbn [ball paddle bricks].
  destruct (GameM.testBricks _ _) as [bs mBall]. reflexivity.
Qed.

Lemma simStep_clock (k : Keys) (g : Game) :
  lastFT (GameM.simStep k g) = lastFT g /\
  currentSlice (GameM.simStep k g) = currentSlice g.
Proof.
  unfold GameM.simStep. destruct (GameM.testBricks _ _) as [bs mBall].
  split; reflexivity.
Qed.

Lemma simSteps_withClock (n : nat) (kb : nat -> Keys) (a b : float) :
  forall i g, simSteps n kb i (withClock g a b) = withClock (simSteps n kb i g) a b.
Proof.
  induction n as [|n IH]; intros i g; [reflexivity|].
  cbn [simSteps]. rewrite simStep_withClock. apply IH.
Qed.

Lemma simSteps_clock (n : nat) (kb : nat -> Keys) :
  forall i g, lastFT (simSteps n kb i g) = lastFT g /\
              currentSlice (simSteps n kb i g) = currentSlice g.
Proof.
  induction n as [|n IH]; intros i g; [split; reflexivity|].
  cbn [simSteps]. destruct (IH (S i) (GameM.simStep (kb i) g)) as [-> ->].
  apply simStep_clock.
Qed.

Lemma simSteps_add (n m : nat) (kb : nat -> Keys) :
  forall i g, simSteps (n + m) kb i g = simSteps m kb (n + i) (simSteps n kb i g).
Proof.
  induction n as [|n IH]; intros i g; [reflexivity|].
  cbn [simSteps Nat.add]. rewrite IH. f_equal. lia.
Qed.

Lemma withClock_id (g : Game) : withClock g (lastFT g) (currentSlice g) = g.
Proof. destruct g; reflexivity. Qed.

End Scheduler.

(** ** Binary32 on a grid of 2^-p: no rounding below 2^24 units *)

Section Dyadic.

Variable p : nat.
Hypothesis Hp : (p <= 23)%nat.

Lemma normalize_pos_grid (s : bool) (q : positive) (k : nat) :
  Zpos q < two24 ->
  binary_round 24 128 s (pshl q k) (- Z.of_nat k - Z.of_nat p) =
    S754_finite s (zmant q) (zexp q - Z.of_nat p).
Proof.
  intros H. pose proof (digits_le_24 q H) as Hd.
  rewrite binary_round_exact by lia.
  unfold zmant, zexp. f_equal. lia.
Qed.

Lemma dyadic_pos (q : positive) :
  Zpos q < two24 ->
  dyadic p (Zpos q) = S754_finite false (zmant q) (zexp q - Z.of_nat p).
Proof. intros H. exact (normalize_pos_grid false q 0 H). Qed.

Lemma dyadic_neg (q : positive) :
  Zpos q < two24 ->
  dyadic p (Zneg q) = S754_finite true (zmant q) (zexp q - Z.of_nat p).
Proof. intros H. exact (normalize_pos_grid true q 0 H). Qed.

Lemma normalize_exact_grid (n : Z) (k : nat) :
  Z.abs n < two24 ->
  binary_normalize 24 128 (n * 2 ^ Z.of_nat k) (- Z.of_nat k - Z.of_nat p) false =
    dyadic p n.
Proof.
  intros H. destruct n as [|q|q].
  - reflexivity.
  - rewrite <- pshl_val. cbn [binary_normalize].
    rewrite normalize_pos_grid, dyadic_pos by exact H. reflexivity.
  - replace (Zneg q * 2 ^ Z.of_nat k) with (Zneg (pshl q k))
      by (rewrite <- !Pos2Z.opp_pos, pshl_val; lia).
    cbn [binary_normalize]. rewrite normalize_pos_grid, dyadic_neg by exact H. reflexivity.
Qed.

Lemma dyadic_finite (n : Z) :
  n <> 0 -> Z.abs n < two24 ->
  exists m e, dyadic p n = S754_finite (n <? 0) m e /\
              -23 - Z.of_nat p <= e <= - Z.of_nat p /\
              cond_Zopp (n <? 0) (Zpos m) = n * 2 ^ (- e - Z.of_nat p).
Proof.
  intros Hn H. destruct n as [|q|q]; [congruence| |].
  - exists (zmant q), (zexp q - Z.of_nat p). rewrite dyadic_pos by exact H.
    pose proof (digits_le_24 q H). split; [reflexivity|]. split; [unfold zexp; lia|].
    cbn [Z.ltb Z.compare cond_Zopp]. rewrite zmant_val by exact H. f_equal. f_equal. lia.
  - exists (zmant q), (zexp q - Z.of_nat p). rewrite dyadic_neg by exact H.
    pose proof (digits_le_24 q H). split; [reflexivity|]. split; [unfold zexp; lia|].
    cbn [Z.ltb Z.compare cond_Zopp]. rewrite zmant_val by exact H.
    replace (- (zexp q - Z.of_nat p) - Z.of_nat p) with (- zexp q) by lia.
    rewrite <- Pos2Z.opp_pos. lia.
Qed.

Lemma aligned_val_grid (n : Z) (s : bool) (m : positive) (e ez : Z) :
  cond_Zopp s (Zpos m) = n * 2 ^ (- e - Z.of_nat p) -> ez <= e <= - Z.of_nat p ->
  cond_Zopp s (Zpos (fst (shl_align m e ez))) = n * 2 ^ (- ez - Z.of_nat p).
Proof.
  intros Hv He. rewrite shl_align_val by lia.
  replace (- ez - Z.of_nat p) with (- e - Z.of_nat p + (e - ez)) by lia.
  rewrite Z.pow_add_r by lia.
  rewrite Z.mul_assoc, <- Hv. destruct s; cbn [cond_Zopp]; lia.
Qed.

(** Sums and differences on the grid are exact below 2^24 units. *)
Lemma dyadic_add (a b : Z) :
  Z.abs a < two24 -> Z.abs b < two24 -> Z.abs (a + b) < two24 ->
  (dyadic p a + dyadic p b)%f32 = dyadic p (a + b).
Proof.
  intros Ha Hb Hab.
  destruct (Z.eq_dec a 0) as [->|Na]; destruct (Z.eq_dec b 0) as [->|Nb].
  - reflexivity.
  - rewrite Z.add_0_l. destruct (dyadic_finite b Nb Hb) as (m & e & -> & _). reflexivity.
  - rewrite Z.add_0_r. destruct (dyadic_finite a Na Ha) as (m & e & -> & _). reflexivity.
  - destruct (dyadic_finite a Na Ha) as (ma & ea & Ea & Hea & Va).
    destruct (dyadic_finite b Nb Hb) as (mb & eb & Eb & Heb & Vb).
    rewrite Ea, Eb. unfold F32.add. cbn [SFadd].
    rewrite (aligned_val_grid a _ _ _ (Z.min ea eb) Va) by lia.
    rewrite (aligned_val_grid b _ _ _ (Z.min ea eb) Vb) by lia.
    rewrite <- Z.mul_add_distr_r.
    replace (Z.min ea eb)
      with (- Z.of_nat (Z.to_nat (- Z.min ea eb - Z.of_nat p)) - Z.of_nat p) at 2 by lia.
    replace (- Z.min ea eb - Z.of_nat p)
      with (Z.of_nat (Z.to_nat (- Z.min ea eb - Z.of_nat p))) at 1 by lia.
    apply (normalize_exact_grid _ _ Hab).
Qed.

Lemma dyadic_sub (a b : Z) :
  b <> 0 -> a <> 0 ->
  Z.abs a < two24 -> Z.abs b < two24 -> Z.abs (a - b) < two24 ->
  (dyadic p a - dyadic p b)%f32 = dyadic p (a - b).
Proof.
  intros Nb Na Ha Hb Hab.
  destruct (dyadic_finite a Na Ha) as (ma & ea & Ea & Hea & Va).
  destruct (dyadic_finite b Nb Hb) as (mb & eb & Eb & Heb & Vb).
  rewrite Ea, Eb. unfold F32.sub. cbn [SFsub].
  rewrite (aligned_val_grid a _ _ _ (Z.min ea eb) Va) by lia.
  rewrite (aligned_val_grid b _ _ _ (Z.min ea eb) Vb) by lia.
  rewrite <- Z.mul_sub_distr_r.
  replace (Z.min ea eb)
    with (- Z.of_nat (Z.to_nat (- Z.min ea eb - Z.of_nat p)) - Z.of_nat p) at 2 by lia.
  replace (- Z.min ea eb - Z.of_nat p)
    with (Z.of_nat (Z.to_nat (- Z.min ea eb - Z.of_nat p))) at 1 by lia.
  apply (normalize_exact_grid _ _ Hab).
Qed.

Lemma compare_shift (x y c : Z) : (x - c ?= y - c) = (x ?= y).
Proof.
  destruct (Z.compare_spec x y) as [E|E|E].
  - rewrite E. apply Z.compare_refl.
  - apply Z.compare_lt_iff. lia.
  - apply Z.compare_gt_iff. lia.
Qed.

(** The order of binary32 on the grid is the order of the units. *)
Lemma dyadic_compare (a b : Z) :
  0 <= a < two24 -> 0 <= b < two24 ->
  SFcompare (dyadic p a) (dyadic p b) = Some (a ?= b).
Proof.
  intros Ha Hb.
  destruct a as [|a|a], b as [|b|b]; try lia;
    rewrite ?dyadic_pos by lia; try reflexivity.
  cbn [SFcompare]. rewrite compare_shift, compare_canonical by lia. reflexivity.
Qed.

Lemma dyadic_geb (a b : Z) :
  0 <= a < two24 -> 0 <= b < two24 ->
  (dyadic p a >=? dyadic p b)%f32 = (a >=? b).
Proof.
  intros Ha Hb. unfold F32.geb, Z.geb. rewrite dyadic_compare by assumption.
  destruct (a ?= b); reflexivity.
Qed.

(** One slice is [2^p] units. *)
Lemma ftSlice_grid : ftSlice = dyadic p (2 ^ Z.of_nat p).
Proof.
  unfold ftSlice, dyadic. rewrite <- (normalize_exact 1 p) by (unfold two24; lia).
  rewrite Z.mul_1_l. reflexivity.
Qed.

Lemma pow2_bound : 0 < 2 ^ Z.of_nat p < two24.
Proof.
  split; [apply Z.pow_pos_nonneg; lia|].
  change two24 with (2 ^ 24). apply Z.pow_lt_mono_r; lia.
Qed.

End Dyadic.

(** ** The scheduler on a grid of durations *)

Section GridScheduler.

Variable p : nat.
Hypothesis Hp : (p <= 23)%nat.
Variable kb : nat -> Keys.

Lemma units_pow : Z.of_nat (2 ^ p) = 2 ^ Z.of_nat p.
Proof. rewrite Nat2Z.inj_pow. reflexivity. Qed.

(** With [q] slices and [r] units in the accumulator the loop runs [q] steps
    and leaves the [r] units. *)
Lemma updateLoop_grid (r : nat) (q : nat) :
  forall fuel i g,
    (r < 2 ^ p)%nat -> Z.of_nat (q * 2 ^ p + r) < two24 -> (q <= fuel)%nat ->
    currentSlice g = gridFrame p (q * 2 ^ p + r) ->
    GameM.updateLoop fuel kb i g =
      Some (withClock (simSteps q kb i g) (lastFT g) (gridFrame p r), (q + i)%nat).
Proof.
  pose proof (pow2_bound p Hp) as Hpow. pose proof units_pow as Hu.
  induction q as [|q IH]; intros fuel i g Hr Hn Hf Hs.
  - cbn [Nat.mul Nat.add] in Hs.
    assert (Hg : g = withClock g (lastFT g) (gridFrame p r))
      by (rewrite <- (withClock_id g) at 1; rewrite Hs; reflexivity).
    assert (Hge : (gridFrame p r >=? ftSlice)%f32 = false).
    { unfold gridFrame. rewrite (ftSlice_grid p Hp), (dyadic_geb p Hp) by lia.
      rewrite Z.geb_leb. apply Z.leb_gt. lia. }
    destruct fuel; cbn [GameM.updateLoop simSteps]; rewrite Hs, Hge, <- Hg; reflexivity.
  - destruct fuel as [|fuel]; [lia|]. cbn [GameM.updateLoop]. rewrite Hs.
    assert (Hge : (gridFrame p (S q * 2 ^ p + r) >=? ftSlice)%f32 = true).
    { unfold gridFrame. rewrite (ftSlice_grid p Hp), (dyadic_geb p Hp) by lia.
      apply Z.geb_le. cbn [Nat.mul]. lia. }
    rewrite Hge. destruct (simStep_clock (kb i) g) as [Hl Hc]. rewrite Hc, Hs.
    assert (Hsub : (gridFrame p (S q * 2 ^ p + r) - ftSlice)%f32 = gridFrame p (q * 2 ^ p + r)).
    { unfold gridFrame. rewrite (ftSlice_grid p Hp).
      cbn [Nat.mul] in Hn |- *.
      rewrite (dyadic_sub p Hp) by lia. f_equal. lia. }
    rewrite Hsub.
    change (GameM.setCurrentSlice (GameM.simStep (kb i) g) ?s)
      with (withClock (GameM.simStep (kb i) g) (lastFT (GameM.simStep (kb i) g)) s).
    rewrite IH by (cbn [currentSlice withClock]; try reflexivity; cbn [Nat.mul] in Hn; lia).
    rewrite simSteps_withClock. cbn [simSteps lastFT withClock]. rewrite Hl.
    f_equal. f_equal. lia.
Qed.

(** One frame of [n] units on an accumulator of [c] units. *)
Lemma updatePhase_grid (c n fuel i : nat) (g : Game) :
  Z.of_nat (c + n) < two24 -> ((c + n) / 2 ^ p <= fuel)%nat ->
  currentSlice g = gridFrame p c ->
  GameM.updatePhase fuel kb i (GameM.setLastFT g (gridFrame p n)) =
    Some (withClock (simSteps ((c + n) / 2 ^ p) kb i g) (gridFrame p n)
                    (gridFrame p ((c + n) mod 2 ^ p)),
          ((c + n) / 2 ^ p + i)%nat).
Proof.
  intros Hn Hf Hs. unfold GameM.updatePhase.
  change (GameM.setCurrentSlice (GameM.setLastFT g (gridFrame p n)) ?s)
    with (withClock g (gridFrame p n) s).
  cbn [currentSlice lastFT GameM.setLastFT]. rewrite Hs.
  assert (Hadd : (gridFrame p c + gridFrame p n)%f32 = gridFrame p (c + n)).
  { unfold gridFrame. rewrite (dyadic_add p Hp) by lia. f_equal. lia. }
  rewrite Hadd.
  assert (Hpos : (2 ^ p <> 0)%nat) by (apply Nat.pow_nonzero; lia).
  pose proof (Nat.div_mod_eq (c + n) (2 ^ p)) as Hdm.
  pose proof (Nat.mod_upper_bound (c + n) (2 ^ p) Hpos) as Hmod.
  rewrite (updateLoop_grid ((c + n) mod 2 ^ p) ((c + n) / 2 ^ p) fuel i
             (withClock g (gridFrame p n) (gridFrame p (c + n))));
    [ | exact Hmod | lia | exact Hf | cbn [currentSlice withClock]; f_equal; lia ].
  rewrite simSteps_withClock. reflexivity.
Qed.

Lemma div_carry (a b N : nat) :
  N <> 0%nat -> (a / N + (a mod N + b) / N = (a + b) / N)%nat.
Proof.
  intros HN. rewrite (Nat.div_mod_eq a N) at 3.
  rewrite <- Nat.add_assoc, (Nat.mul_comm N), Nat.div_add_l by exact HN. reflexivity.
Qed.

Lemma mod_carry (a b N : nat) :
  N <> 0%nat -> ((a mod N + b) mod N = (a + b) mod N)%nat.
Proof. intros HN. apply Nat.Div0.add_mod_idemp_l. Qed.

(** Frames on the grid: the scheduler runs as many steps as the accumulator
    and the frames hold whole slices, and carries the rest. *)
Lemma feedFrames_grid (fuel : nat) (ns : list nat) :
  forall c i g,
    (c < 2 ^ p)%nat ->
    Z.of_nat (c + list_sum ns) < two24 -> ((c + list_sum ns) / 2 ^ p <= fuel)%nat ->
    currentSlice g = gridFrame p c ->
    exists last,
      feedFrames fuel kb (map (gridFrame p) ns) g i =
        Some (withClock (simSteps ((c + list_sum ns) / 2 ^ p) kb i g) last
                        (gridFrame p ((c + list_sum ns) mod 2 ^ p)),
              ((c + list_sum ns) / 2 ^ p + i)%nat).
Proof.
  assert (Hpos : (2 ^ p <> 0)%nat) by (apply Nat.pow_nonzero; lia).
  induction ns as [|n ns IH]; intros c i g Hc Hn Hf Hs.
  - exists (lastFT g). change (list_sum []) with 0%nat. rewrite Nat.add_0_r.
    rewrite Nat.div_small, Nat.mod_small by exact Hc.
    cbn [feedFrames map simSteps]. rewrite <- Hs, withClock_id. reflexivity.
  - change (list_sum (n :: ns)) with (n + list_sum ns)%nat in *.
    cbn [map feedFrames].
    assert (Hle : ((c + n) / 2 ^ p <= (c + (n + list_sum ns)) / 2 ^ p)%nat)
      by (apply Nat.Div0.div_le_mono; lia).
    rewrite (updatePhase_grid c n fuel i g) by (try assumption; lia).
    pose proof (Nat.mod_upper_bound (c + n) (2 ^ p) Hpos) as Hmod.
    pose proof (Nat.Div0.mod_le (c + n) (2 ^ p)) as Hml.
    pose proof (div_carry (c + n) (list_sum ns) (2 ^ p) Hpos) as Hd.
    pose proof (mod_carry (c + n) (list_sum ns) (2 ^ p) Hpos) as Hm.
    rewrite <- Nat.add_assoc in Hd, Hm.
    destruct (IH ((c + n) mod 2 ^ p)%nat ((c + n) / 2 ^ p + i)%nat
                (withClock (simSteps ((c + n) / 2 ^ p) kb i g) (gridFrame p n)
                           (gridFrame p ((c + n) mod 2 ^ p))))
      as [last Hl]; [exact Hmod | lia | lia | reflexivity |].
    exists last. rewrite Hl, simSteps_withClock, Hm, <- Hd, simSteps_add.
    cbn [withClock ball paddle bricks windowOpen running]. f_equal. f_equal. lia.
Qed.

End GridScheduler.

(** C3, as the program has it.  Durations on a common grid: the accumulator
    and every frame a whole number of units of 2^-p step (p at most 23),
    fewer than 2^24 units in all, so that no addition or subtraction of the
    accumulator rounds.  However the total is split into frames, the
    scheduler ends every frame, carries what is left of a slice from frame
    to frame, runs the same simulation steps (as many as the total holds
    whole slices, in the same order, under the same keyboard states) and
    leaves the same ball, paddle, bricks and accumulator.  One frame of two
    steps against two frames of one step, and two frames of half a step
    against one frame of one step, are instances. *)
Theorem grid_frames_chunking :
  forall (p c : nat) (ns1 ns2 : list nat) (fuel : nat) (kb : nat -> Keys)
         (i : nat) (g : Game),
    (p <= 23)%nat ->
    currentSlice g = gridFrame p c -> (c < 2 ^ p)%nat ->
    list_sum ns1 = list_sum ns2 ->
    Z.of_nat (c + list_sum ns1) < two24 ->
    ((c + list_sum ns1) / 2 ^ p <= fuel)%nat ->
    let steps := ((c + list_sum ns1) / 2 ^ p)%nat in
    exists g1 g2 : Game,
      feedFrames fuel kb (map (gridFrame p) ns1) g i = Some (g1, (steps + i)%nat) /\
      feedFrames fuel kb (map (gridFrame p) ns2) g i = Some (g2, (steps + i)%nat) /\
      sameEntities g1 (simSteps steps kb i g) /\
      sameEntities g2 (simSteps steps kb i g) /\
      sameEntities g1 g2 /\
      currentSlice g1 = gridFrame p ((c + list_sum ns1) mod 2 ^ p) /\
      currentSlice g2 = currentSlice g1.
Proof.
  intros p c ns1 ns2 fuel kb i g Hp Hs Hc Hsum Hn Hf steps.
  destruct (feedFrames_grid p Hp kb fuel ns1 c i g Hc Hn Hf Hs) as [l1 H1].
  rewrite Hsum in Hn, Hf.
  destruct (feedFrames_grid p Hp kb fuel ns2 c i g Hc Hn Hf Hs) as [l2 H2].
  rewrite <- Hsum in H2. fold steps in H1, H2.
  eexists. eexists. split; [exact H1|]. split; [exact H2|]. repeat split.
Qed.

(** Two frames of half a step against one frame of one step, from the
    initial game: one simulation step either way. *)
Lemma grid_frames_chunking_witness :
  exists g1 g2 : Game,
    feedFrames 1 (fun _ => noKeys) [gridFrame 1 1; gridFrame 1 1] GameM.make 0 =
      Some (g1, 1%nat) /\
    feedFrames 1 (fun _ => noKeys) [gridFrame 1 2] GameM.make 0 = Some (g2, 1%nat) /\
    sameEntities g1 g2 /\ sameEntities g1 (GameM.simStep noKeys GameM.make).
Proof.
  assert (H23 : (1 <= 23)%nat) by (repeat constructor).
  assert (Hc : (0 < 2 ^ 1)%nat) by (cbv; repeat constructor).
  destruct (grid_frames_chunking 1 0 [1%nat; 1%nat] [2%nat] 1 (fun _ => noKeys) 0 GameM.make
              H23 eq_refl Hc eq_refl eq_refl (le_n 1))
    as (g1 & g2 & H1 & H2 & H3 & _ & H5 & _).
  exists g1, g2. split; [exact H1|]. split; [exact H2|]. split; [exact H5 | exact H3].
Defined.

(** C3 as stated fails in binary32: the frames 0.99999994 (the number just
    below 1) and 2, in the two orders.  The total is the same; with the
    short frame first the accumulator rounds up to 3 and three steps run,
    with the long frame first two steps run. *)
Lemma chunking_changes_steps :
  let a := S754_finite false 16777215 (-24) in
  let b := F32.of_Z 2 in
  let kb := fun _ : nat => noKeys in
  option_map snd (feedFrames 4 kb [a; b] GameM.make 0) = Some 3%nat /\
  option_map snd (feedFrames 4 kb [b; a] GameM.make 0) = Some 2%nat /\
  option_map (fun r => ball (fst r)) (feedFrames 4 kb [a; b] GameM.make 0) <>
  option_map (fun r => ball (fst r)) (feedFrames 4 kb [b; a] GameM.make 0).
Proof.
  vm_compute. repeat split; discriminate.
Qed.

(** ** The game loop *)

Section Loop.

Lemma pollEvents_running (evs : list Event) :
  forall g, running (GameM.pollEvents evs g) = running g.
Proof.
  induction evs as [|e evs IH]; intros g; [reflexivity|].
  cbn [GameM.pollEvents]. destruct (windowOpen g); [|reflexivity].
  rewrite IH. destruct (isClosed e); reflexivity.
Qed.

(** [inputPhase] clears the flag on Escape, and on nothing else. *)
Lemma inputPhase_running (evs : list Event) (k : Keys) (g : Game) :
  running (GameM.inputPhase evs k g) = running g && negb (keyEscape k).
Proof.
  unfold GameM.inputPhase.
  destruct (keySpace k), (keyEscape k); cbn [running GameM.setBall GameM.setRunning];
    rewrite ?pollEvents_running, ?andb_true_r, ?andb_false_r; reflexivity.
Qed.

Lemma simStep_running (k : Keys) (g : Game) :
  running (GameM.simStep k g) = running g.
Proof.
  unfold GameM.simStep. destruct (GameM.testBricks _ _) as [bs mBall]. reflexivity.
Qed.

Lemma updateLoop_running (fuel : nat) (kb : nat -> Keys) :
  forall i g g' i',
    GameM.updateLoop fuel kb i g = Some (g', i') -> running g' = running g.
Proof.
  induction fuel as [|fuel IH]; intros i g g' i'; cbn [GameM.updateLoop];
    destruct (currentSlice g >=? ftSlice)%f32; try discriminate;
    try (intros [= <- <-]; reflexivity).
  intros H. apply IH in H. rewrite H. cbn [running GameM.setCurrentSlice].
  apply simStep_running.
Qed.

(** The Escape path: the iteration that sees Escape is the last one. *)
Lemma escape_ends_run (fuel : nat) (kb : nat -> Keys)
    (inp : GameM.FrameInput) (rest : list GameM.FrameInput) (l l' : GameM.Loop) :
  running (GameM.game l) = true ->
  keyEscape (GameM.keys inp) = true ->
  GameM.iteration fuel kb inp l = Some l' ->
  GameM.runLoop fuel kb (inp :: rest) l = Some (l', rest) /\
  running (GameM.game l') = false /\
  length (GameM.displayed l') = S (length (GameM.displayed l)).
Proof.
  intros Hr He Hit. cbn [GameM.runLoop]. rewrite Hr, Hit.
  unfold GameM.iteration in Hit.
  destruct (GameM.updatePhase _ _ _ _) as [[g i]|] eqn:Hu; [|discriminate].
  injection Hit as <-. unfold GameM.updatePhase in Hu.
  apply updateLoop_running in Hu. cbn [running GameM.setCurrentSlice] in Hu.
  rewrite inputPhase_running, He, andb_false_r in Hu.
  assert (Hstop : running (GameM.setLastFT g (GameM.elapsed inp)) = false) by exact Hu.
  split; [|split; [exact Hstop | reflexivity]].
  destruct rest; cbn [GameM.runLoop GameM.game]; rewrite Hstop; reflexivity.
Qed.

Lemma updatePhase_running (fuel : nat) (kb : nat -> Keys) (i : nat) (g g' : Game) (i' : nat) :
  GameM.updatePhase fuel kb i g = Some (g', i') -> running g' = running g.
Proof.
  unfold GameM.updatePhase. intros H. apply updateLoop_running in H. exact H.
Qed.

(** X16. [feedFrames] is the loop of [run] without input: feeding the durations
    [d0 :: ds] is running as many idle iterations, the first with [d0] in
    [lastFT], which the clock measures to last [ds] and then [dlast]. *)
Lemma run_idle_is_feedFrames (fuel : nat) (kb : nat -> Keys) (dlast : float)
    (ds : list float) :
  forall (d0 : float) (l : GameM.Loop),
    running (GameM.game l) = true -> lastFT (GameM.game l) = d0 ->
    match feedFrames fuel kb (d0 :: ds) (GameM.game l) (GameM.stepNo l) with
    | Some (g', i') =>
        exists l', GameM.runLoop fuel kb (map idleFrame (ds ++ [dlast])) l = Some (l', []) /\
                   GameM.game l' = GameM.setLastFT g' dlast /\ GameM.stepNo l' = i'
    | None => GameM.runLoop fuel kb (map idleFrame (ds ++ [dlast])) l = None
    end.
Proof.
  induction ds as [|d ds IH]; intros d0 l Hr Hd.
  - cbn [feedFrames app map GameM.runLoop]. rewrite Hr.
    unfold GameM.iteration, idleFrame.
    cbn [GameM.events GameM.keys GameM.elapsed GameM.inputPhase GameM.pollEvents
         noKeys keyEscape keySpace].
    assert (Hg : GameM.setLastFT (GameM.game l) d0 = GameM.game l)
      by (rewrite <- Hd; destruct (GameM.game l); reflexivity).
    rewrite Hg.
    destruct (GameM.updatePhase fuel kb (GameM.stepNo l) (GameM.game l)) as [[g' i']|];
      [|reflexivity].
    exists (GameM.mkLoop (GameM.setLastFT g' dlast) i'
              (GameM.drawPhase g' :: GameM.displayed l)).
    split; [|split; reflexivity].
    cbn [GameM.game]. destruct (running (GameM.setLastFT g' dlast)); reflexivity.
  - cbn [feedFrames]. cbn [app map GameM.runLoop]. rewrite Hr.
    unfold GameM.iteration.
    cbn [idleFrame GameM.events GameM.keys GameM.elapsed GameM.inputPhase
         GameM.pollEvents noKeys keyEscape keySpace].
    assert (Hg : GameM.setLastFT (GameM.game l) d0 = GameM.game l)
      by (rewrite <- Hd; destruct (GameM.game l); reflexivity).
    rewrite Hg.
    destruct (GameM.updatePhase fuel kb (GameM.stepNo l) (GameM.game l)) as [[g1 i1]|] eqn:Hu;
      [|reflexivity].
    apply updatePhase_running in Hu.
    specialize (IH d (GameM.mkLoop (GameM.setLastFT g1 d) i1
                        (GameM.drawPhase g1 :: GameM.displayed l))).
    cbn [GameM.game GameM.stepNo] in IH.
    cbn [feedFrames] in IH.
    change (GameM.setLastFT (GameM.setLastFT g1 d) d) with (GameM.setLastFT g1 d) in IH.
    apply IH; [rewrite <- Hr, <- Hu; reflexivity | reflexivity].
Qed.

End Loop.

(** C8, at the input on which the program departs from it.  An iteration
    whose input sampling sees the window-close event and no Escape closes the
    window and leaves the running flag set: the loop goes on to the next
    iterations, drawing to the closed window. *)
Theorem window_close_leaves_loop_running :
  let closing := GameM.mkFrameInput [Closed] noKeys (F32.of_Z 4) in
  let idle := GameM.mkFrameInput [] noKeys (F32.of_Z 4) in
  let kb := fun _ : nat => noKeys in
  running (GameM.inputPhase [Closed] noKeys (GameM.setRunning GameM.make true)) = true /\
  exists l : GameM.Loop,
    GameM.run 8 kb [closing; idle; idle] GameM.make = Some (l, []) /\
    running (GameM.game l) = true /\
    windowOpen (GameM.game l) = false /\
    length (GameM.displayed l) = 3%nat.
Proof.
  intros closing idle kb. split; [reflexivity|].
  destruct (GameM.run 8 kb [closing; idle; idle] GameM.make) as [[l r]|] eqn:E;
    vm_compute in E; [|discriminate].
  injection E as <- <-. eexists. split; [reflexivity|]. repeat split.
Qed.

(** ** The input phase *)

Section Input.

Lemma pollEvents_effect (evs : list Event) :
  forall g, GameM.pollEvents evs g =
            GameM.setWindowOpen g (windowOpen g && negb (existsb isClosed evs)).
Proof.
  induction evs as [|e evs IH]; intros g.
  - cbn [GameM.pollEvents existsb negb]. rewrite andb_true_r. destruct g; reflexivity.
  - cbn [GameM.pollEvents existsb]. destruct (windowOpen g) eqn:Ho.
    + rewrite IH. destruct (isClosed e); cbn [orb negb andb windowOpen GameM.setWindowOpen].
      * destruct g; reflexivity.
      * rewrite Ho. reflexivity.
    + cbn [andb]. rewrite <- Ho. destruct g; reflexivity.
Qed.

End Input.

(** X1. [inputPhase] in full: the window is open afterwards when it was open
    and no [Closed] event is pending, the running flag stays set when it was
    set and Escape is not held, the ball is reset when Space is held; the
    paddle, the bricks and the two clock fields are never written. *)
Theorem inputPhase_effect :
  forall (evs : list Event) (k : Keys) (g : Game),
    GameM.inputPhase evs k g =
      mkGame (windowOpen g && negb (existsb isClosed evs))
             (lastFT g) (currentSlice g)
             (running g && negb (keyEscape k))
             (if keySpace k then BallM.resetBall (ball g) else ball g)
             (paddle g) (bricks g).
Proof.
  intros evs k g. unfold GameM.inputPhase. rewrite pollEvents_effect.
  destruct g as [o l c r b p ks].
  destruct (keyEscape k), (keySpace k), r;
    cbn [GameM.setRunning GameM.setBall GameM.setWindowOpen windowOpen lastFT
         currentSlice running ball paddle bricks andb negb]; reflexivity.
Qed.

(** ** The loop of the scheduler, for any duration *)

Section SchedulerLoop.

Lemma withClock_twice (g : Game) (a b a' b' : float) :
  withClock (withClock g a b) a' b' = withClock g a' b'.
Proof. reflexivity. Qed.

Lemma updateLoop_steps (fuel : nat) (kb : nat -> Keys) :
  forall i g g' i',
    GameM.updateLoop fuel kb i g = Some (g', i') ->
    (currentSlice g' >=? ftSlice)%f32 = false /\
    (i <= i' <= i + fuel)%nat /\
    g' = withClock (simSteps (i' - i) kb i g) (lastFT g) (currentSlice g').
Proof.
  induction fuel as [|fuel IH]; intros i g g' i'; cbn [GameM.updateLoop];
    destruct (currentSlice g >=? ftSlice)%f32 eqn:E; try discriminate.
  - intros [= <- <-]. split; [exact E|]. split; [lia|].
    rewrite Nat.sub_diag. cbn [simSteps]. symmetry. apply withClock_id.
  - intros H. apply IH in H. destruct H as (H1 & H2 & H3).
    split; [exact H1|]. split; [lia|].
    replace (i' - i)%nat with (S (i' - S i)) by lia. cbn [simSteps].
    rewrite H3 at 1.
    change (GameM.setCurrentSlice ?x ?s) with (withClock x (lastFT x) s).
    rewrite simSteps_withClock. cbn [lastFT withClock].
    rewrite (proj1 (simStep_clock (kb i) g)). reflexivity.
  - intros [= <- <-]. split; [exact E|]. split; [lia|].
    rewrite Nat.sub_diag. cbn [simSteps]. symmetry. apply withClock_id.
Qed.

Lemma updateLoop_stuck (x : float) (kb : nat -> Keys) (fuel : nat) :
  (x >=? ftSlice)%f32 = true -> (x - ftSlice)%f32 = x ->
  forall i g, currentSlice g = x -> GameM.updateLoop fuel kb i g = None.
Proof.
  intros Hx Hs. induction fuel as [|fuel IH]; intros i g Hg;
    cbn [GameM.updateLoop]; rewrite Hg, Hx; [reflexivity|].
  apply IH. cbn [currentSlice GameM.setCurrentSlice].
  rewrite (proj2 (simStep_clock (kb i) g)), Hg. exact Hs.
Qed.

Lemma shr_nonneg (mrs : shr_record) (e n : Z) :
  0 <= shr_m mrs -> 0 <= shr_m (fst (shr mrs e n)).
Proof.
  intros H. unfold shr. destruct n as [|k|k]; cbn [fst]; try exact H.
  rewrite iter_pos_nat. apply shr_iter_bound, H.
Qed.

(** Rounding a positive mantissa never gives NaN. *)
Lemma round_aux_not_nan (s : bool) (m : positive) (e : Z) (l : location) :
  F32.is_nan (binary_round_aux 24 128 s (Zpos m) e l) = false.
Proof.
  unfold binary_round_aux, shr_fexp.
  assert (H0 : 0 <= shr_m (shr_record_of_loc (Zpos m) l))
    by (destruct l as [|[]]; cbn; lia).
  pose proof (shr_nonneg _ e (fexp 24 128 (Zdigits2 (Zpos m) + e) - e) H0) as H1.
  destruct (shr (shr_record_of_loc (Zpos m) l) e _) as [mrs' e']. cbn [fst] in H1.
  pose proof (rne_bound _ (loc_of_shr_record mrs') H1) as [H2 _].
  set (m2 := round_nearest_even (shr_m mrs') (loc_of_shr_record mrs')) in *.
  assert (H3 : 0 <= shr_m (shr_record_of_loc m2 loc_Exact)) by (cbn; lia).
  pose proof (shr_nonneg _ e' (fexp 24 128 (Zdigits2 m2 + e') - e') H3) as H4.
  destruct (shr (shr_record_of_loc m2 loc_Exact) e' _) as [mrs'' e'']. cbn [fst] in H4.
  destruct (shr_m mrs'') as [|q|q]; [reflexivity| |lia].
  destruct (e'' <=? 128 - 24); reflexivity.
Qed.

Lemma normalize_not_nan (z e : Z) :
  F32.is_nan (binary_normalize 24 128 z e false) = false.
Proof.
  destruct z as [|q|q]; cbn [binary_normalize]; [reflexivity| |];
    unfold binary_round; destruct (shl_align _ _ _) as [mz ez]; apply round_aux_not_nan.
Qed.

(** Taking a slice off a number leaves a number. *)
Lemma sub_slice_not_nan (x : float) :
  F32.is_nan x = false -> F32.is_nan (x - ftSlice)%f32 = false.
Proof.
  change ftSlice with (S754_finite false 8388608 (-23)). unfold F32.sub.
  destruct x as [s|s| |s m e]; cbn [SFsub F32.is_nan]; try reflexivity; try discriminate.
  intros _. apply normalize_not_nan.
Qed.

Lemma updateLoop_not_nan (fuel : nat) (kb : nat -> Keys) :
  forall i g g' i',
    F32.is_nan (currentSlice g) = false ->
    GameM.updateLoop fuel kb i g = Some (g', i') ->
    F32.is_nan (currentSlice g') = false.
Proof.
  induction fuel as [|fuel IH]; intros i g g' i' Hn; cbn [GameM.updateLoop];
    destruct (currentSlice g >=? ftSlice)%f32; try discriminate;
    try (intros [= <- <-]; exact Hn).
  intros H. apply IH in H; [exact H|].
  cbn [currentSlice GameM.setCurrentSlice].
  rewrite (proj2 (simStep_clock (kb i) g)). apply sub_slice_not_nan, Hn.
Qed.

Lemma not_geb_ltb (a b : float) :
  F32.is_nan a = false -> F32.is_nan b = false ->
  (a >=? b)%f32 = false -> (a <? b)%f32 = true.
Proof.
  intros Ha Hb. unfold F32.geb, F32.ltb.
  destruct (SFcompare a b) as [[]|] eqn:E; try congruence.
  destruct (SFcompare_nan _ _ E); congruence.
Qed.

Lemma nan_not_geb (a b : float) : F32.is_nan a = true -> (a >=? b)%f32 = false.
Proof. destruct a; try discriminate. reflexivity. Qed.

End SchedulerLoop.

(** X2. When the loop of [updatePhase] ends, for whatever durations: the
    accumulator does not hold a slice any more; it holds strictly less than
    a slice, and a number, unless the accumulated time [currentSlice +
    lastFT] was NaN, in which case no step is run and NaN is left.  At most
    [fuel] steps were run, and the game is the one the simulation steps
    [i .. i'-1] give in that order; [lastFT], the running flag and the
    window are as they were. *)
Theorem updatePhase_postcondition :
  forall (fuel : nat) (kb : nat -> Keys) (i : nat) (g g' : Game) (i' : nat),
    GameM.updatePhase fuel kb i g = Some (g', i') ->
    (currentSlice g' >=? ftSlice)%f32 = false /\
    (F32.is_nan (currentSlice g + lastFT g)%f32 = false ->
     (currentSlice g' <? ftSlice)%f32 = true /\ F32.is_nan (currentSlice g') = false) /\
    (F32.is_nan (currentSlice g + lastFT g)%f32 = true ->
     i' = i /\ F32.is_nan (currentSlice g') = true) /\
    (i <= i' <= i + fuel)%nat /\
    g' = withClock (simSteps (i' - i) kb i g) (lastFT g) (currentSlice g').
Proof.
  intros fuel kb i g g' i' H. unfold GameM.updatePhase in H.
  pose proof (updateLoop_steps _ _ _ _ _ _ H) as (H1 & H2 & H3).
  split; [exact H1|]. split; [|split; [|split; [exact H2|]]].
  - intros Hn.
    pose proof (updateLoop_not_nan fuel kb i
                  (GameM.setCurrentSlice g (currentSlice g + lastFT g)%f32) g' i' Hn H) as Hn'.
    split; [|exact Hn']. apply not_geb_ltb; [exact Hn' | reflexivity | exact H1].
  - intros Hn. destruct fuel; cbn [GameM.updateLoop] in H;
      cbn [currentSlice GameM.setCurrentSlice] in H;
      rewrite (nan_not_geb _ ftSlice Hn) in H; injection H as <- <-;
      split; [reflexivity | exact Hn | reflexivity | exact Hn].
  - change (GameM.setCurrentSlice g ?s) with (withClock g (lastFT g) s) in H3.
    rewrite simSteps_withClock in H3. exact H3.
Qed.

(** A frame of 2.5 after an empty accumulator: two steps, 0.5 left. *)
Lemma updatePhase_postcondition_witness :
  let g := GameM.setLastFT GameM.make (S754_finite false 10485760 (-22)) in
  exists g', GameM.updatePhase 5 (fun _ => noKeys) 0 g = Some (g', 2%nat) /\
             currentSlice g' = S754_finite false 8388608 (-24) /\
             (currentSlice g' <? ftSlice)%f32 = true /\
             g' = withClock (simSteps 2 (fun _ => noKeys) 0 g) (lastFT g) (currentSlice g').
Proof.
  intros g.
  destruct (GameM.updatePhase 5 (fun _ => noKeys) 0 g) as [[g' i']|] eqn:E;
    [|vm_compute in E; discriminate].
  assert (Hi : i' = 2%nat) by (vm_compute in E; injection E as _ <-; reflexivity).
  subst i'. exists g'. split; [reflexivity|].
  destruct (updatePhase_postcondition 5 (fun _ => noKeys) 0 g g' 2 E)
    as (_ & Hlt & _ & _ & H).
  split; [vm_compute in E; injection E as <-; reflexivity|].
  split; [exact (proj1 (Hlt eq_refl)) | exact H].
Defined.

(** X4. The loop of [updatePhase] never ends once the accumulator holds a
    value of at least one slice that subtracting a slice rounds back to
    itself, such as 2^25 or infinity: no amount of fuel gives a result. *)
Theorem updatePhase_never_ends :
  forall (x : float) (fuel : nat) (kb : nat -> Keys) (i : nat) (g : Game),
    (x >=? ftSlice)%f32 = true -> (x - ftSlice)%f32 = x ->
    currentSlice g = F32.of_Z 0 -> lastFT g = x ->
    (F32.of_Z 0 + x)%f32 = x ->
    GameM.updatePhase fuel kb i g = None.
Proof.
  intros x fuel kb i g Hx Hs Hc Hl Ha. unfold GameM.updatePhase.
  apply (updateLoop_stuck x kb fuel Hx Hs).
  cbn [currentSlice GameM.setCurrentSlice]. rewrite Hc, Hl. exact Ha.
Qed.

(** A frame measured to last 2^25 (milliseconds: a little over nine hours). *)
Lemma updatePhase_never_ends_witness :
  (F32.of_Z 33554432 - ftSlice)%f32 = F32.of_Z 33554432 /\
  GameM.updatePhase 1000 (fun _ => noKeys) 0
    (GameM.setLastFT GameM.make (F32.of_Z 33554432)) = None.
Proof.
  split; [reflexivity|].
  apply (updatePhase_never_ends (F32.of_Z 33554432)); reflexivity.
Defined.

(** ** Collisions, composed *)

Section Collisions.

Lemma isIntersecting_paddle_shape (p : Paddle) (b b' : Ball) :
  b_shape b' = b_shape b -> isIntersecting p b' = isIntersecting p b.
Proof.
  intros Hb. unfold isIntersecting. simpl.
  unfold BallM.left, BallM.right, BallM.top, BallM.bottom, BallM.x, BallM.y.
  rewrite Hb. reflexivity.
Qed.

Lemma testCollisionPaddle_shape (p : Paddle) (b : Ball) :
  b_shape (testCollisionPaddle p b) = b_shape b.
Proof.
  unfold testCollisionPaddle. destruct (negb (isIntersecting p b)); [reflexivity|].
  destruct (_ <? _)%f32; reflexivity.
Qed.

Lemma overlaps_shape (k k' : Brick) (b b' : Ball) :
  k_shape k' = k_shape k -> b_shape b' = b_shape b ->
  overlapLeft k' b' = overlapLeft k b /\ overlapRight k' b' = overlapRight k b /\
  overlapTop k' b' = overlapTop k b /\ overlapBottom k' b' = overlapBottom k b.
Proof.
  intros Hk Hb. unfold overlapLeft, overlapRight, overlapTop, overlapBottom. simpl.
  unfold BallM.left, BallM.right, BallM.top, BallM.bottom, BallM.x, BallM.y.
  rewrite Hk, Hb. repeat split.
Qed.

Lemma testCollisionBrick_ball_flag (k : Brick) (d : bool) (b : Ball) :
  snd (testCollisionBrick (BrickM.setDestroyed k d) b) = snd (testCollisionBrick k b).
Proof.
  destruct k as [sh d0]. unfold testCollisionBrick, BrickM.setDestroyed. cbn [k_shape].
  rewrite (isIntersecting_brick_shape (mkBrick sh d0) (mkBrick sh d) b b eq_refl eq_refl).
  destruct (negb (isIntersecting (mkBrick sh d0) b)); [reflexivity|].
  unfold minOverlapX, minOverlapY, ballFromLeft, ballFromTop.
  destruct (overlaps_shape (mkBrick sh d0) (mkBrick sh d) b b eq_refl eq_refl)
    as (-> & -> & -> & ->).
  destruct (_ <? _)%f32; reflexivity.
Qed.

Lemma ballOp_radius (b b' : Ball) :
  ballOp b b' -> c_radius (b_shape b') = c_radius (b_shape b).
Proof.
  intros [b0 mFT | b0 p | b0 k | b0].
  - unfold BallM.update.
    repeat match goal with
           | |- context [if ?c then _ else _] => destruct c
           end; reflexivity.
  - rewrite testCollisionPaddle_shape. reflexivity.
  - rewrite testCollisionBrick_ball_shape. reflexivity.
  - reflexivity.
Qed.

Lemma ballReachable_radius (b : Ball) :
  ballReachable b -> c_radius (b_shape b) = ballRadius.
Proof.
  induction 1 as [mX mY | b b' _ IH Hop]; [reflexivity|].
  rewrite (ballOp_radius _ _ Hop). exact IH.
Qed.

End Collisions.

(** X5. The loop over the bricks never moves anything: the bricks keep their
    shapes and their order, the ball its position and radius; the bricks
    marked are those that intersect the ball as it entered the loop, a brick
    already marked stays marked, and when no brick intersects, bricks and
    ball come out as they went in. *)
Theorem testBricks_effect :
  forall (bs : list Brick) (b : Ball),
    fst (GameM.testBricks bs b) =
      map (fun k => if isIntersecting k b then BrickM.setDestroyed k true else k) bs /\
    map k_shape (fst (GameM.testBricks bs b)) = map k_shape bs /\
    b_shape (snd (GameM.testBricks bs b)) = b_shape b /\
    ((forall k, In k bs -> isIntersecting k b = false) ->
     GameM.testBricks bs b = (bs, b)).
Proof.
  intros bs b. split; [apply testBricks_bricks; reflexivity|].
  split; [|split].
  - rewrite (testBricks_bricks bs b b eq_refl), map_map. apply map_ext.
    intros k. destruct (isIntersecting k b); reflexivity.
  - revert b. induction bs as [|k bs IH]; intros b; [reflexivity|].
    cbn [GameM.testBricks].
    pose proof (testCollisionBrick_ball_shape k b) as Hs.
    destruct (testCollisionBrick k b) as [k' b1]. cbn [snd] in Hs.
    specialize (IH b1). destruct (GameM.testBricks bs b1) as [bs' b2].
    cbn [snd] in IH |- *. congruence.
  - revert b. induction bs as [|k bs IH]; intros b Hno; [reflexivity|].
    cbn [GameM.testBricks]. unfold testCollisionBrick at 1.
    rewrite (Hno k (or_introl eq_refl)). cbn [negb].
    rewrite IH by (intros k' Hk'; apply Hno; right; exact Hk'). reflexivity.
Qed.

(** Two bricks of the wall and a ball that overlaps the first only. *)
Lemma testBricks_effect_witness :
  let bs := [gridBrick 0 0; gridBrick 5 3] in
  let b := BallM.make (F32.of_Z 300) (F32.of_Z 300) in
  (forall k, In k bs -> isIntersecting k b = false) /\
  GameM.testBricks bs b = (bs, b).
Proof.
  intros bs b.
  assert (H : forall k, In k bs -> isIntersecting k b = false).
  { intros k [<- | [<- | []]]; reflexivity. }
  split; [exact H|].
  destruct (testBricks_effect bs b) as (_ & _ & _ & Hid). exact (Hid H).
Defined.

(** X6. Resolving a collision never moves the ball and looks at shapes only:
    resolving the same paddle, or the same brick, a second time changes
    nothing more, and a brick already marked destroyed deflects the ball
    exactly as a live one. *)
Theorem testCollision_idempotent :
  forall (p : Paddle) (k : Brick) (d : bool) (b : Ball),
    b_shape (testCollisionPaddle p b) = b_shape b /\
    b_shape (snd (testCollisionBrick k b)) = b_shape b /\
    testCollisionPaddle p (testCollisionPaddle p b) = testCollisionPaddle p b /\
    testCollisionBrick (fst (testCollisionBrick k b)) (snd (testCollisionBrick k b)) =
      testCollisionBrick k b /\
    snd (testCollisionBrick (BrickM.setDestroyed k d) b) = snd (testCollisionBrick k b).
Proof.
  intros p k d b.
  split; [apply testCollisionPaddle_shape|].
  split; [apply testCollisionBrick_ball_shape|].
  split; [|split; [|apply testCollisionBrick_ball_flag]].
  - destruct (isIntersecting p b) eqn:Hi.
    + destruct (BallM.x b <? PaddleM.x p)%f32 eqn:E.
      * assert (H1 : testCollisionPaddle p b =
                     mkBall (b_shape b) (mkVector2f (- ballVelocity)%f32 (- ballVelocity)%f32)).
        { unfold testCollisionPaddle. rewrite Hi. cbn [negb].
          change (BallM.x (BallM.setVelocityY ?u ?v)) with (BallM.x u).
          rewrite E. reflexivity. }
        rewrite H1. unfold testCollisionPaddle.
        rewrite (isIntersecting_paddle_shape p b (mkBall (b_shape b) _) eq_refl), Hi.
        cbn [negb].
        change (BallM.x (BallM.setVelocityY ?u ?v)) with (BallM.x b).
        rewrite E. reflexivity.
      * assert (H1 : testCollisionPaddle p b =
                     mkBall (b_shape b) (mkVector2f ballVelocity (- ballVelocity)%f32)).
        { unfold testCollisionPaddle. rewrite Hi. cbn [negb].
          change (BallM.x (BallM.setVelocityY ?u ?v)) with (BallM.x u).
          rewrite E. reflexivity. }
        rewrite H1. unfold testCollisionPaddle.
        rewrite (isIntersecting_paddle_shape p b (mkBall (b_shape b) _) eq_refl), Hi.
        cbn [negb].
        change (BallM.x (BallM.setVelocityY ?u ?v)) with (BallM.x b).
        rewrite E. reflexivity.
    + assert (H1 : testCollisionPaddle p b = b)
        by (unfold testCollisionPaddle; rewrite Hi; reflexivity).
      rewrite !H1. reflexivity.
  - pose proof (testCollisionBrick_brick k b) as Hk.
    pose proof (testCollisionBrick_ball_shape k b) as Hs.
    destruct (testCollisionBrick k b) as [k1 b1] eqn:E0. cbn [fst snd] in *.
    assert (Hks : k_shape k1 = k_shape k)
      by (rewrite Hk; destruct (isIntersecting k b); reflexivity).
    unfold testCollisionBrick in E0 |- *.
    rewrite (isIntersecting_brick_shape k k1 b b1 Hks Hs).
    unfold minOverlapX, minOverlapY, ballFromLeft, ballFromTop in *.
    destruct (overlaps_shape k k1 b b1 Hks Hs) as (-> & -> & -> & ->).
    destruct (isIntersecting k b); cbn [negb] in *;
      [|injection E0 as <- <-; reflexivity].
    destruct (_ <? _)%f32; injection E0 as <- <-; reflexivity.
Qed.

(** X7. In every reachable state the ball has the radius it was created
    with, and each operation keeps the radius. *)
Theorem ball_radius_invariant :
  forall b b' : Ball,
    ballReachable b -> ballOp b b' ->
    c_radius (b_shape b) = ballRadius /\ c_radius (b_shape b') = ballRadius.
Proof.
  intros b b' Hr Hop. split; [apply ballReachable_radius, Hr|].
  rewrite (ballOp_radius _ _ Hop). apply ballReachable_radius, Hr.
Qed.

Lemma ball_radius_invariant_witness :
  let b := BallM.make (F32.of_Z 400) (F32.of_Z 300) in
  c_radius (b_shape b) = ballRadius /\
  c_radius (b_shape (BallM.resetBall b)) = ballRadius.
Proof.
  intros b. apply (ball_radius_invariant b (BallM.resetBall b)).
  - apply reach_make.
  - apply op_reset.
Defined.

(** ** The bricks over a run *)

Section BricksOverTime.

Lemma filter_length_le' {A : Type} (f : A -> bool) (l : list A) :
  (length (filter f l) <= length l)%nat.
Proof.
  induction l as [|a l IH]; [apply le_n|]. cbn [filter].
  destruct (f a); cbn [length]; lia.
Qed.

Lemma simStep_bricks_incl (k : Keys) (g : Game) :
  incl (bricks (GameM.simStep k g)) (bricks g) /\
  (length (bricks (GameM.simStep k g)) <= length (bricks g))%nat.
Proof.
  rewrite simStep_bricks. split; [apply incl_filter | apply filter_length_le'].
Qed.

Lemma simSteps_bricks_incl (n : nat) (kb : nat -> Keys) :
  forall i g,
    incl (bricks (simSteps n kb i g)) (bricks g) /\
    (length (bricks (simSteps n kb i g)) <= length (bricks g))%nat.
Proof.
  induction n as [|n IH]; intros i g; [split; [apply incl_refl | apply le_n]|].
  cbn [simSteps]. destruct (IH (S i) (GameM.simStep (kb i) g)) as [H1 H2].
  destruct (simStep_bricks_incl (kb i) g) as [H3 H4].
  split; [exact (incl_tran H1 H3) | lia].
Qed.

Lemma wall_live : forall k, In k GameM.wall -> destroyed k = false.
Proof.
  assert (H : forallb (fun k => negb (destroyed k)) GameM.wall = true) by reflexivity.
  intros k Hk. rewrite forallb_forall in H. apply negb_true_iff, H, Hk.
Qed.

End BricksOverTime.

(** X8. Bricks only ever disappear: after any number of simulation steps the
    bricks of the game are bricks it had before, no more of them, and a step
    in which no live brick intersects the ball leaves the collection as it
    was. *)
Theorem bricks_only_disappear :
  forall (n : nat) (kb : nat -> Keys) (i : nat) (g : Game),
    incl (bricks (simSteps n kb i g)) (bricks g) /\
    (length (bricks (simSteps n kb i g)) <= length (bricks g))%nat /\
    ((forall k, In k (bricks g) ->
        destroyed k = false /\ isIntersecting k (ballAtBricks (kb i) g) = false) ->
     bricks (GameM.simStep (kb i) g) = bricks g).
Proof.
  intros n kb i g. destruct (simSteps_bricks_incl n kb i g) as [H1 H2].
  split; [exact H1|]. split; [exact H2|].
  clear H1 H2. rewrite simStep_bricks.
  generalize (ballAtBricks (kb i) g). intros b0.
  generalize (bricks g). intros l Hno.
  induction l as [|k l IH]; [reflexivity|]. cbn [filter].
  destruct (Hno k (or_introl eq_refl)) as [-> ->]. cbn [negb andb].
  f_equal. apply IH. intros k' Hk'. apply Hno. right. exact Hk'.
Qed.

(** The first step of the game: the ball is far from the wall. *)
Lemma bricks_only_disappear_witness :
  (forall k, In k (bricks GameM.make) ->
     destroyed k = false /\ isIntersecting k (ballAtBricks noKeys GameM.make) = false) /\
  bricks (GameM.simStep noKeys GameM.make) = bricks GameM.make.
Proof.
  assert (H : forall k, In k (bricks GameM.make) ->
     destroyed k = false /\ isIntersecting k (ballAtBricks noKeys GameM.make) = false).
  { assert (Hb : forallb (fun k => negb (destroyed k) &&
                                   negb (isIntersecting k (ballAtBricks noKeys GameM.make)))
                         (bricks GameM.make) = true) by (vm_compute; reflexivity).
    intros k Hk. rewrite forallb_forall in Hb. specialize (Hb k Hk).
    apply andb_prop in Hb. destruct Hb as [Hd Hi].
    split; apply negb_true_iff; assumption. }
  split; [exact H|].
  destruct (bricks_only_disappear 0 (fun _ => noKeys) 0 GameM.make) as (_ & _ & Hs).
  exact (Hs H).
Defined.

(** ** The loop of [run] *)

Section RunLoop.

Lemma inputPhase_entities (evs : list Event) (k : Keys) (g : Game) :
  paddle (GameM.inputPhase evs k g) = paddle g /\
  bricks (GameM.inputPhase evs k g) = bricks g.
Proof.
  unfold GameM.inputPhase. rewrite pollEvents_effect.
  destruct (keySpace k), (keyEscape k); split; reflexivity.
Qed.

Lemma inputPhase_inv (evs : list Event) (k : Keys) (g : Game) :
  gameInv g -> gameInv (GameM.inputPhase evs k g).
Proof.
  intros (Hp & Hb & Hk). destruct (inputPhase_entities evs k g) as [Ep Ek].
  unfold gameInv. rewrite Ep, Ek.
  split; [exact Hp|]. split; [apply inputPhase_ballReachable, Hb | exact Hk].
Qed.

Lemma updatePhase_inv (fuel : nat) (kb : nat -> Keys) (i : nat) (g g' : Game) (i' : nat) :
  gameInv g -> GameM.updatePhase fuel kb i g = Some (g', i') -> gameInv g'.
Proof.
  intros (Hp & Hb & Hk) H. unfold GameM.updatePhase in H.
  apply updateLoop_steps in H. destruct H as (_ & _ & ->).
  unfold gameInv. cbn [paddle ball bricks withClock].
  change (GameM.setCurrentSlice g ?s) with (withClock g (lastFT g) s).
  rewrite simSteps_withClock. cbn [paddle ball bricks withClock].
  split; [apply simSteps_paddle, Hp|].
  split; [apply simSteps_ballReachable, Hb|].
  exact (incl_tran (proj1 (simSteps_bricks_incl _ kb i g)) Hk).
Qed.

Lemma iteration_inv (fuel : nat) (kb : nat -> Keys) (inp : GameM.FrameInput)
    (l l' : GameM.Loop) :
  gameInv (GameM.game l) -> GameM.iteration fuel kb inp l = Some l' ->
  gameInv (GameM.game l').
Proof.
  intros Hg H. unfold GameM.iteration in H.
  destruct (GameM.updatePhase _ _ _ _) as [[g i]|] eqn:Hu; [|discriminate].
  injection H as <-. cbn [GameM.game].
  apply (updatePhase_inv _ _ _ _ _ _ (inputPhase_inv _ _ _ Hg)) in Hu.
  exact Hu.
Qed.

Lemma runLoop_inv (fuel : nat) (kb : nat -> Keys) (inps : list GameM.FrameInput) :
  forall l l' rest,
    gameInv (GameM.game l) -> GameM.runLoop fuel kb inps l = Some (l', rest) ->
    gameInv (GameM.game l').
Proof.
  induction inps as [|inp inps IH]; intros l l' rest Hg; cbn [GameM.runLoop].
  - destruct (running (GameM.game l)); intros [= <- _]; exact Hg.
  - destruct (running (GameM.game l)); [|intros [= <- _]; exact Hg].
    destruct (GameM.iteration fuel kb inp l) as [l1|] eqn:Hi; [|discriminate].
    apply IH. exact (iteration_inv _ _ _ _ _ Hg Hi).
Qed.

Lemma make_inv : gameInv (GameM.setRunning GameM.make true).
Proof.
  split; [exact paddle_make_inv|]. split; [apply reach_make | apply incl_refl].
Qed.

(** One iteration: the flag, the frames drawn, the steps counted. *)
Lemma iteration_effect (fuel : nat) (kb : nat -> Keys) (inp : GameM.FrameInput)
    (l l' : GameM.Loop) :
  GameM.iteration fuel kb inp l = Some l' ->
  running (GameM.game l') = running (GameM.game l) && negb (keyEscape (GameM.keys inp)) /\
  length (GameM.displayed l') = S (length (GameM.displayed l)) /\
  (GameM.stepNo l <= GameM.stepNo l')%nat.
Proof.
  intros H. unfold GameM.iteration in H.
  destruct (GameM.updatePhase _ _ _ _) as [[g i]|] eqn:Hu; [|discriminate].
  injection H as <-. cbn [GameM.game GameM.displayed GameM.stepNo length].
  pose proof (updatePhase_running _ _ _ _ _ _ Hu) as Hr.
  unfold GameM.updatePhase in Hu. apply updateLoop_steps in Hu.
  destruct Hu as (_ & Hi & _).
  split; [|split; [reflexivity | lia]].
  cbn [running GameM.setLastFT]. rewrite Hr. apply inputPhase_running.
Qed.

End RunLoop.

(** X9. Whatever the events, the keys and the measured durations, when [run]
    returns, the game it started from the constructor has its paddle inside
    the window, its ball at the configured speed and radius, and only live
    bricks of the original wall. *)
Theorem run_keeps_invariants :
  forall (fuel : nat) (kb : nat -> Keys) (inps rest : list GameM.FrameInput)
         (l : GameM.Loop),
    GameM.run fuel kb inps GameM.make = Some (l, rest) ->
    inWindow (paddle (GameM.game l)) /\
    speedOK (ball (GameM.game l)) /\
    c_radius (b_shape (ball (GameM.game l))) = ballRadius /\
    (forall k, In k (bricks (GameM.game l)) -> In k GameM.wall /\ destroyed k = false).
Proof.
  intros fuel kb inps rest l H. unfold GameM.run in H.
  apply runLoop_inv in H; [|exact make_inv].
  destruct H as (Hp & Hb & Hk).
  split; [apply paddleInv_bounds, Hp|].
  split; [apply ballReachable_speedOK, Hb|].
  split; [apply ballReachable_radius, Hb|].
  intros k Hin. split; [apply Hk, Hin | apply wall_live, Hk, Hin].
Qed.

(** ** Where the loop stops *)

Section RunOnGrid.

Variables p B fuel : nat.
Variable kb : nat -> Keys.
Hypothesis Hp : (p <= 23)%nat.
Hypothesis HB : Z.of_nat (2 ^ p + B) < two24.
Hypothesis Hfuel : ((2 ^ p + B) / 2 ^ p <= fuel)%nat.

Lemma inputPhase_clock (evs : list Event) (k : Keys) (g : Game) :
  lastFT (GameM.inputPhase evs k g) = lastFT g /\
  currentSlice (GameM.inputPhase evs k g) = currentSlice g.
Proof.
  unfold GameM.inputPhase. rewrite pollEvents_effect.
  destruct (keySpace k), (keyEscape k); split; reflexivity.
Qed.

(** On the grid every iteration ends, and leaves the clock on the grid. *)
Lemma iteration_grid (inp : GameM.FrameInput) (l : GameM.Loop) :
  clockOnGrid p B (GameM.game l) -> inputOnGrid p B inp ->
  exists l', GameM.iteration fuel kb inp l = Some l' /\
             clockOnGrid p B (GameM.game l').
Proof.
  intros (c & n & Hc & Hlt & Hl & Hn) (n' & He & Hn').
  unfold GameM.iteration.
  set (g0 := GameM.inputPhase (GameM.events inp) (GameM.keys inp) (GameM.game l)).
  destruct (inputPhase_clock (GameM.events inp) (GameM.keys inp) (GameM.game l))
    as [El Ec]. fold g0 in El, Ec.
  assert (Hg0 : g0 = GameM.setLastFT g0 (gridFrame p n))
    by (rewrite <- Hl, <- El; destruct g0; reflexivity).
  assert (Hdiv : ((c + n) / 2 ^ p <= fuel)%nat).
  { apply Nat.le_trans with ((2 ^ p + B) / 2 ^ p)%nat; [|exact Hfuel].
    apply Nat.Div0.div_le_mono. lia. }
  rewrite Hg0, (updatePhase_grid p Hp kb c n fuel (GameM.stepNo l) g0)
    by (try lia; rewrite Ec; exact Hc).
  eexists. split; [reflexivity|]. cbn [GameM.game].
  exists ((c + n) mod 2 ^ p)%nat, n'. cbn [currentSlice lastFT GameM.setLastFT withClock].
  split; [reflexivity|]. split; [|split; [exact He | exact Hn']].
  apply Nat.mod_upper_bound, Nat.pow_nonzero. lia.
Qed.

Lemma runLoop_no_escape_grid (pre : list GameM.FrameInput) :
  forall l,
    running (GameM.game l) = true -> clockOnGrid p B (GameM.game l) ->
    Forall (inputOnGrid p B) pre ->
    Forall (fun x => keyEscape (GameM.keys x) = false) pre ->
    exists l', GameM.runLoop fuel kb pre l = Some (l', []) /\
               running (GameM.game l') = true /\ clockOnGrid p B (GameM.game l') /\
               length (GameM.displayed l') = (length (GameM.displayed l) + length pre)%nat.
Proof.
  induction pre as [|inp pre IH]; intros l Hr Hc Hg Hn.
  - exists l. cbn [GameM.runLoop length]. split; [rewrite Hr; reflexivity|].
    split; [exact Hr|]. split; [exact Hc | lia].
  - inversion Hg as [|x xs Hx Hxs]; subst. inversion Hn as [|y ys Hy Hys]; subst.
    destruct (iteration_grid inp l Hc Hx) as (l1 & Hi & Hc1).
    destruct (iteration_effect _ _ _ _ _ Hi) as (H1 & H2 & _).
    rewrite Hr, Hy in H1.
    destruct (IH l1 H1 Hc1 Hxs Hys) as (l' & E1 & E2 & E3 & E4).
    exists l'. cbn [GameM.runLoop]. rewrite Hr, Hi.
    split; [exact E1|]. split; [exact E2|]. split; [exact E3|]. cbn [length]. lia.
Qed.

End RunOnGrid.

(** X10. While the measured durations stay on a grid of 2^-p step, at most
    [B] units each, and the fuel covers the steps of one frame, the loop of
    [run] does stop at the first iteration that sees Escape: it returns after
    that iteration's update and draw, the running flag cleared and the later
    inputs unread.  Without Escape it returns at the end of the inputs, still
    running.  Every iteration it ran drew exactly one frame. *)
Theorem runLoop_stops_at_first_escape :
  forall (p B fuel : nat) (kb : nat -> Keys) (pre : list GameM.FrameInput)
         (inp : GameM.FrameInput) (post : list GameM.FrameInput) (l : GameM.Loop),
    (p <= 23)%nat -> Z.of_nat (2 ^ p + B) < two24 ->
    ((2 ^ p + B) / 2 ^ p <= fuel)%nat ->
    running (GameM.game l) = true -> clockOnGrid p B (GameM.game l) ->
    Forall (inputOnGrid p B) pre ->
    Forall (fun x => keyEscape (GameM.keys x) = false) pre ->
    (inputOnGrid p B inp -> keyEscape (GameM.keys inp) = true ->
     exists l',
       GameM.runLoop fuel kb (pre ++ inp :: post) l = Some (l', post) /\
       running (GameM.game l') = false /\
       length (GameM.displayed l') = (length (GameM.displayed l) + length pre + 1)%nat) /\
    (exists l',
       GameM.runLoop fuel kb pre l = Some (l', []) /\
       running (GameM.game l') = true /\
       length (GameM.displayed l') = (length (GameM.displayed l) + length pre)%nat).
Proof.
  intros p B fuel kb pre inp post l Hp HB Hf Hr Hc Hg Hn. split.
  - intros Hi He.
    assert (Hall : Forall (inputOnGrid p B) (pre ++ [inp]))
      by (apply Forall_app; split; [exact Hg | constructor; [exact Hi | constructor]]).
    clear Hg Hi. revert l Hr Hc Hall.
    induction pre as [|x pre IH]; intros l Hr Hc Hall.
    + inversion Hall as [|y ys Hy _]; subst.
      destruct (iteration_grid p B fuel kb Hp HB Hf inp l Hc Hy) as (l1 & Hit & _).
      destruct (escape_ends_run fuel kb inp post l l1 Hr He Hit) as (H1 & H2 & H3).
      exists l1. split; [exact H1|]. split; [exact H2|]. cbn [length]. lia.
    + inversion Hall as [|y ys Hy Hys]; subst. inversion Hn as [|z zs Hz Hzs]; subst.
      destruct (iteration_grid p B fuel kb Hp HB Hf x l Hc Hy) as (l1 & Hit & Hc1).
      destruct (iteration_effect _ _ _ _ _ Hit) as (H1 & H2 & _).
      rewrite Hr, Hz in H1.
      destruct (IH Hzs l1 H1 Hc1 Hys) as (l' & E1 & E2 & E3).
      exists l'. cbn [app GameM.runLoop]. rewrite Hr, Hit.
      split; [exact E1|]. split; [exact E2|]. cbn [length]. lia.
  - destruct (runLoop_no_escape_grid p B fuel kb Hp HB Hf pre l Hr Hc Hg Hn)
      as (l' & E1 & E2 & _ & E4).
    exists l'. split; [exact E1|]. split; [exact E2 | exact E4].
Qed.

(** An idle frame, a frame with the left arrow and a pending event, a frame
    that closes the window with Space held. *)
Lemma run_keeps_invariants_witness :
  exists (l : GameM.Loop) (rest : list GameM.FrameInput),
    GameM.run 10 (fun _ => leftKeys)
      [idleFrame (F32.of_Z 4); GameM.mkFrameInput [OtherEvent] leftKeys (F32.of_Z 3);
       GameM.mkFrameInput [Closed] (mkKeys false false false true) (F32.of_Z 2)]
      GameM.make = Some (l, rest) /\
    inWindow (paddle (GameM.game l)) /\ speedOK (ball (GameM.game l)).
Proof.
  destruct (GameM.run 10 (fun _ => leftKeys)
      [idleFrame (F32.of_Z 4); GameM.mkFrameInput [OtherEvent] leftKeys (F32.of_Z 3);
       GameM.mkFrameInput [Closed] (mkKeys false false false true) (F32.of_Z 2)]
      GameM.make) as [[l rest]|] eqn:E; [|vm_compute in E; discriminate].
  exists l, rest. split; [reflexivity|].
  destruct (run_keeps_invariants _ _ _ _ _ E) as (H1 & H2 & _).
  split; assumption.
Defined.

(** Escape in the second of three iterations of four steps each. *)
Lemma runLoop_stops_at_first_escape_witness :
  let esc := GameM.mkFrameInput [] (mkKeys false false true false) (gridFrame 0 4) in
  let idle := idleFrame (gridFrame 0 4) in
  let l := GameM.mkLoop (GameM.setRunning GameM.make true) 0 [] in
  exists l' : GameM.Loop,
    GameM.runLoop 5 (fun _ => noKeys) ([idle] ++ esc :: [idle]) l = Some (l', [idle]) /\
    running (GameM.game l') = false /\ length (GameM.displayed l') = 2%nat.
Proof.
  intros esc idle l.
  assert (H23 : (0 <= 23)%nat) by (repeat constructor).
  assert (HB : Z.of_nat (2 ^ 0 + 4) < two24) by reflexivity.
  assert (Hf : ((2 ^ 0 + 4) / 2 ^ 0 <= 5)%nat) by (cbv; repeat constructor).
  assert (Hc : clockOnGrid 0 4 (GameM.game l)).
  { exists 0%nat, 0%nat. split; [reflexivity|]. split; [cbv; repeat constructor|].
    split; [reflexivity | repeat constructor]. }
  assert (Hi : inputOnGrid 0 4 idle) by (exists 4%nat; split; [reflexivity | repeat constructor]).
  assert (He : inputOnGrid 0 4 esc) by (exists 4%nat; split; [reflexivity | repeat constructor]).
  assert (Hg : Forall (inputOnGrid 0 4) [idle]) by (constructor; [exact Hi | constructor]).
  assert (Hn : Forall (fun x => keyEscape (GameM.keys x) = false) [idle])
    by (constructor; [reflexivity | constructor]).
  destruct (runLoop_stops_at_first_escape 0 4 5 (fun _ => noKeys) [idle] esc [idle] l
              H23 HB Hf eq_refl Hc Hg Hn) as [H _].
  exact (H He eq_refl).
Defined.

(** ** The walls *)

Section Walls.

Lemma geb_not_ltb (a b : float) : (a >=? b)%f32 = true -> (a <? b)%f32 = false.
Proof.
  unfold F32.geb, F32.ltb. destruct (SFcompare a b) as [[]|]; congruence.
Qed.

Lemma leb_not_gtb (a b : float) : (a <=? b)%f32 = true -> (a >? b)%f32 = false.
Proof.
  unfold F32.leb, F32.gtb. destruct (SFcompare a b) as [[]|]; congruence.
Qed.

End Walls.

(** X11. [Ball::update] at the walls: it always returns [true] and keeps the
    position the ball moved to; it negates the horizontal velocity exactly
    when the moved ball has its left edge below 0 or its right edge beyond
    the window width; and a moved ball that is inside the window on its left,
    right and top keeps its velocity. *)
Theorem update_wall_bounces :
  forall (b : Ball) (mFT : float),
    let m := BallM.moved b mFT in
    let b' := snd (BallM.update b mFT) in
    fst (BallM.update b mFT) = true /\
    b_shape b' = b_shape m /\
    vx (b_velocity b') =
      (if (BallM.left m <? F32.of_Z 0)%f32 || (BallM.right m >? F32.of_Z windowWidth)%f32
       then (- vx (b_velocity b))%f32 else vx (b_velocity b)) /\
    ((BallM.left m >=? F32.of_Z 0)%f32 = true ->
     (BallM.right m <=? F32.of_Z windowWidth)%f32 = true ->
     (BallM.top m >=? F32.of_Z 0)%f32 = true ->
     b_velocity b' = b_velocity b).
Proof.
  intros b mFT m b'. unfold b', BallM.update. fold m.
  assert (Hm : BallM.setVelocityY m (vy (b_velocity m)) = m)
    by (destruct m as [sh [wx wy]]; reflexivity).
  rewrite Hm.
  assert (Hif : (if (BallM.bottom m >? F32.of_Z windowHeight)%f32 then m else m) = m)
    by (destruct (_ >? _)%f32; reflexivity).
  rewrite Hif. cbn [fst snd].
  split; [reflexivity|]. split; [|split].
  - destruct ((BallM.left m <? F32.of_Z 0) || (BallM.right m >? F32.of_Z windowWidth))%f32;
      match goal with
      | |- context [BallM.top ?u] => change (BallM.top u) with (BallM.top m)
      end; destruct (BallM.top m <? F32.of_Z 0)%f32; reflexivity.
  - destruct ((BallM.left m <? F32.of_Z 0) || (BallM.right m >? F32.of_Z windowWidth))%f32;
      match goal with
      | |- context [BallM.top ?u] => change (BallM.top u) with (BallM.top m)
      end; destruct (BallM.top m <? F32.of_Z 0)%f32; reflexivity.
  - intros Hl Hr Ht.
    rewrite (geb_not_ltb _ _ Hl), (leb_not_gtb _ _ Hr). cbn [orb].
    rewrite (geb_not_ltb _ _ Ht). reflexivity.
Qed.

(** The ball of the game on its first move. *)
Lemma update_wall_bounces_witness :
  let b := BallM.make (F32.of_Z 400) (F32.of_Z 300) in
  (BallM.left (BallM.moved b ftStep) >=? F32.of_Z 0)%f32 = true /\
  b_velocity (snd (BallM.update b ftStep)) = b_velocity b.
Proof.
  intros b. split; [reflexivity|].
  destruct (update_wall_bounces b ftStep) as (_ & _ & _ & H).
  apply H; reflexivity.
Defined.

(** ** The paddle and the keys *)

Section PaddleKeys.

Lemma paddle_update_whole (k : Keys) (n v : Z) :
  30 <= n <= 770 -> -1 <= v <= 1 ->
  PaddleM.update k (wholePaddle n v) ftStep =
    wholePaddle (n + v) (chosenVelocity k (n + v)).
Proof.
  intros Hn Hv. unfold wholePaddle, chosenVelocity.
  unfold PaddleM.update, PaddleM.moved, movePos, scale.
  cbn [p_shape p_velocity r_position r_size vx vy].
  rewrite velocity_times_step by assumption.
  rewrite of_Z_add by (apply two24_gt; unfold windowHeight; lia).
  replace (F32.of_Z (windowHeight - 50) + F32.of_Z 0 * ftStep)%f32
    with (F32.of_Z (windowHeight - 50)) by reflexivity.
  cbn [left right Rectangle_Bounded p_shape].
  unfold RectangleM.left, RectangleM.right, RectangleM.x.
  cbn [r_position r_size vx vy]. rewrite halfWidth_30.
  rewrite of_Z_sub, of_Z_add by (apply two24_gt; lia).
  rewrite of_Z_gtb, of_Z_ltb by (apply two24_gt; unfold windowWidth; lia).
  unfold PaddleM.setVelocityX. cbn [p_shape p_velocity vy].
  destruct (keyLeft k && (n + v - 30 >? 0)); [reflexivity|].
  destruct (keyRight k && (n + v + 30 <? windowWidth)); reflexivity.
Qed.

Lemma paddleAfter_snoc (ks : list Keys) (k : Keys) (p : Paddle) :
  paddleAfter (ks ++ [k]) p = PaddleM.update k (paddleAfter ks p) ftStep.
Proof. unfold paddleAfter. rewrite fold_left_app. reflexivity. Qed.

Lemma hold_left_state (m : nat) :
  paddleAfter (repeat leftKeys (S m)) (paddle GameM.make) =
    wholePaddle (Z.max 30 (400 - Z.of_nat m))
                (if Z.max 30 (400 - Z.of_nat m) >? 30 then -1 else 0).
Proof.
  induction m as [|m IH].
  - reflexivity.
  - change (repeat leftKeys (S (S m))) with (leftKeys :: repeat leftKeys (S m)).
    rewrite repeat_cons, paddleAfter_snoc, IH.
    rewrite paddle_update_whole
      by (try destruct (Z.max 30 (400 - Z.of_nat m) >? 30); lia).
    unfold chosenVelocity, leftKeys. cbn [keyLeft keyRight andb].
    destruct (Z.gtb_spec (Z.max 30 (400 - Z.of_nat m)) 30) as [H|H].
    + replace (Z.max 30 (400 - Z.of_nat m) + -1) with (Z.max 30 (400 - Z.of_nat (S m))) by lia.
      destruct (Z.gtb_spec (Z.max 30 (400 - Z.of_nat (S m))) 30) as [H'|H'];
        destruct (Z.gtb_spec (Z.max 30 (400 - Z.of_nat (S m)) - 30) 0); try lia; reflexivity.
    + replace (Z.max 30 (400 - Z.of_nat m) + 0) with (Z.max 30 (400 - Z.of_nat (S m))) by lia.
      destruct (Z.gtb_spec (Z.max 30 (400 - Z.of_nat (S m))) 30) as [H'|H'];
        destruct (Z.gtb_spec (Z.max 30 (400 - Z.of_nat (S m)) - 30) 0); try lia; reflexivity.
Qed.

End PaddleKeys.

(** X12. The keys act one step late: the position [Paddle::update] leaves
    does not depend on the keys it reads, only its velocity does.  That
    velocity is one of [-paddleVelocity], 0 and [paddleVelocity], is 0 with
    neither arrow held, and the left arrow wins over the right one while the
    left edge is inside the window.  Size and vertical velocity are kept. *)
Theorem paddle_keys_act_next_step :
  forall (k k' : Keys) (p : Paddle) (mFT : float),
    let q := PaddleM.update k p mFT in
    p_shape q = p_shape (PaddleM.update k' p mFT) /\
    p_shape q = p_shape (PaddleM.moved p mFT) /\
    r_size (p_shape q) = r_size (p_shape p) /\
    vy (p_velocity q) = vy (p_velocity p) /\
    (vx (p_velocity q) = (- paddleVelocity)%f32 \/
     vx (p_velocity q) = paddleVelocity \/ vx (p_velocity q) = F32.of_Z 0) /\
    (keyLeft k = false -> keyRight k = false -> vx (p_velocity q) = F32.of_Z 0) /\
    (keyLeft k = true -> (left (PaddleM.moved p mFT) >? F32.of_Z 0)%f32 = true ->
     vx (p_velocity q) = (- paddleVelocity)%f32).
Proof.
  intros k k' p mFT q.
  assert (Hs : forall k0, p_shape (PaddleM.update k0 p mFT) = p_shape (PaddleM.moved p mFT)).
  { intros k0. unfold PaddleM.update.
    destruct (keyLeft k0 && _); [reflexivity|]. destruct (keyRight k0 && _); reflexivity. }
  unfold q. rewrite !Hs. split; [reflexivity|]. split; [reflexivity|].
  split; [reflexivity|]. unfold PaddleM.update.
  change (left (p_shape (PaddleM.moved p mFT))) with (left (PaddleM.moved p mFT)).
  destruct (keyLeft k); destruct (left (PaddleM.moved p mFT) >? F32.of_Z 0)%f32;
    destruct (keyRight k);
    destruct (right (p_shape (PaddleM.moved p mFT)) <? F32.of_Z windowWidth)%f32;
    cbn [andb PaddleM.setVelocityX p_velocity vx vy];
    repeat split; auto; try discriminate.
Qed.

Lemma paddle_keys_act_next_step_witness :
  let p := paddle GameM.make in
  PaddleM.x (PaddleM.update (mkKeys true true false false) p ftStep) = F32.of_Z 400 /\
  vx (p_velocity (PaddleM.update (mkKeys true true false false) p ftStep)) =
    (- paddleVelocity)%f32.
Proof.
  intros p. split; [reflexivity|].
  destruct (paddle_keys_act_next_step (mkKeys true true false false) noKeys p ftStep)
    as (_ & _ & _ & _ & _ & _ & H).
  apply H; reflexivity.
Defined.

(** X13. The left arrow held from the start of the game: the first update
    leaves the paddle at 400, each later one moves it left by one, and once
    it reaches 30, its left edge on the edge of the window, it stays there. *)
Theorem paddle_hold_left :
  forall m : nat,
    let p := paddleAfter (repeat leftKeys (S m)) (paddle GameM.make) in
    PaddleM.x p = F32.of_Z (Z.max 30 (400 - Z.of_nat m)) /\
    left p = F32.of_Z (Z.max 0 (370 - Z.of_nat m)).
Proof.
  intros m p. unfold p. rewrite hold_left_state. split; [reflexivity|].
  unfold wholePaddle. cbn [left Paddle_Bounded Rectangle_Bounded p_shape].
  unfold RectangleM.left, RectangleM.x. cbn [r_position r_size vx].
  rewrite halfWidth_30, of_Z_sub by (apply two24_gt; lia).
  f_equal. lia.
Qed.

(** Both arrows held against the left wall. *)
Lemma paddle_jitter_state (j : nat) :
  paddleAfter (repeat bothKeys j) (wholePaddle 30 1) =
    if Nat.even j then wholePaddle 30 1 else wholePaddle 31 (-1).
Proof.
  induction j as [|j IH]; [reflexivity|].
  change (repeat bothKeys (S j)) with (bothKeys :: repeat bothKeys j).
  rewrite repeat_cons, paddleAfter_snoc, IH, Nat.even_succ, <- Nat.negb_even.
  destruct (Nat.even j); cbn [negb]; rewrite paddle_update_whole by lia; reflexivity.
Qed.

Lemma paddleAfter_app (ks ks' : list Keys) (p : Paddle) :
  paddleAfter (ks ++ ks') p = paddleAfter ks' (paddleAfter ks p).
Proof. unfold paddleAfter. apply fold_left_app. Qed.

(** X14. Both arrows held from the start of the game: the left arrow wins
    until the paddle stands at the left wall, after 371 updates; from then
    on the right arrow moves it one to the right, the left arrow takes it
    back, and the paddle alternates between 30 and 31 for ever. *)
Theorem paddle_both_arrows_jitter :
  forall j : nat,
    PaddleM.x (paddleAfter (repeat bothKeys (371 + j)) (paddle GameM.make)) =
      F32.of_Z (if Nat.even j then 30 else 31).
Proof.
  intros j. rewrite repeat_app, paddleAfter_app.
  assert (H : paddleAfter (repeat bothKeys 371) (paddle GameM.make) = wholePaddle 30 1)
    by (vm_compute; reflexivity).
  rewrite H, paddle_jitter_state. destruct (Nat.even j); reflexivity.
Qed.

(** ** The wall of the constructor *)

Section Wall.

Lemma pairwiseb_nth {A : Type} (f : A -> A -> bool) (l : list A) :
  pairwiseb f l = true ->
  forall (i j : nat) (a b : A),
    (i < j)%nat -> nth_error l i = Some a -> nth_error l j = Some b -> f a b = true.
Proof.
  induction l as [|x l IH]; intros H i j a b Hij Ha Hb.
  - destruct i; discriminate.
  - cbn [pairwiseb] in H. apply andb_prop in H. destruct H as [Hx Hl].
    destruct j as [|j]; [lia|]. cbn [nth_error] in Hb. destruct i as [|i].
    + cbn [nth_error] in Ha. injection Ha as <-.
      rewrite forallb_forall in Hx. apply Hx. exact (nth_error_In _ _ Hb).
    + cbn [nth_error] in Ha. apply (IH Hl i j a b); [lia | exact Ha | exact Hb].
Qed.

End Wall.

(** X15. The constructor lays the wall out column by column on a grid:
    [countBlocksX] columns of [countBlocksY] bricks, the brick of column [iX]
    and row [iY] centred at (63 (iX + 1) + 22, 23 (iY + 2)), all live, and no
    two bricks of the wall intersect or touch. *)
Theorem wall_layout :
  length GameM.wall = Z.to_nat (countBlocksX * countBlocksY) /\
  (forall iX iY : Z,
     0 <= iX < countBlocksX -> 0 <= iY < countBlocksY ->
     nth_error GameM.wall (Z.to_nat (countBlocksY * iX + iY)) = Some (gridBrick iX iY)) /\
  (forall (i j : nat) (a b : Brick),
     (i < j)%nat -> nth_error GameM.wall i = Some a -> nth_error GameM.wall j = Some b ->
     isIntersecting a b = false /\ isIntersecting b a = false).
Proof.
  split; [reflexivity|]. split.
  - intros iX iY HX HY. unfold countBlocksX, countBlocksY in *.
    assert (EX : iX = 0 \/ iX = 1 \/ iX = 2 \/ iX = 3 \/ iX = 4 \/ iX = 5 \/ iX = 6 \/
                 iX = 7 \/ iX = 8 \/ iX = 9 \/ iX = 10) by lia.
    assert (EY : iY = 0 \/ iY = 1 \/ iY = 2 \/ iY = 3) by lia.
    clear HX HY.
    repeat (destruct EX as [-> | EX]); try subst iX;
      repeat (destruct EY as [-> | EY]); try subst iY; vm_compute; reflexivity.
  - intros i j a b Hij Ha Hb.
    assert (H : pairwiseb (fun a b => negb (isIntersecting a b) && negb (isIntersecting b a))
                          GameM.wall = true) by (vm_compute; reflexivity).
    pose proof (pairwiseb_nth _ _ H i j a b Hij Ha Hb) as Hab.
    apply andb_prop in Hab. destruct Hab as [H1 H2].
    split; apply negb_true_iff; assumption.
Qed.

(** The brick of column 2, row 1 and its neighbour below. *)
Lemma wall_layout_witness :
  nth_error GameM.wall 9 = Some (gridBrick 2 1) /\
  isIntersecting (gridBrick 2 1) (gridBrick 2 2) = false.
Proof.
  destruct wall_layout as (_ & Hg & Hd). split.
  - apply (Hg 2 1); unfold countBlocksX, countBlocksY; lia.
  - apply (Hd 9%nat 10%nat (gridBrick 2 1) (gridBrick 2 2)); [lia | |].
    + apply (Hg 2 1); unfold countBlocksX, countBlocksY; lia.
    + apply (Hg 2 2); unfold countBlocksX, countBlocksY; lia.
Defined.

(** The game started idle: three frames fed to the scheduler are four
    iterations of the loop. *)
Lemma run_idle_is_feedFrames_witness :
  let l := GameM.mkLoop (GameM.setRunning GameM.make true) 0 [] in
  exists l',
    GameM.runLoop 10 (fun _ => noKeys)
      (map idleFrame ([F32.of_Z 2; F32.of_Z 3] ++ [F32.of_Z 1])) l = Some (l', []) /\
    GameM.stepNo l' = 5%nat.
Proof.
  intros l.
  pose proof (run_idle_is_feedFrames 10 (fun _ => noKeys) (F32.of_Z 1)
                [F32.of_Z 2; F32.of_Z 3] (F32.of_Z 0) l eq_refl eq_refl) as H.
  match type of H with
  | match ?t with _ => _ end =>
      assert (E : exists g', t = Some (g', 5%nat)) by (vm_compute; eexists; reflexivity)
  end.
  destruct E as [g' E]. rewrite E in H.
  destruct H as (l' & H1 & _ & H3). exists l'. split; [exact H1 | exact H3].
Defined.

(** ** The ball within one step *)

Section StepBall.

Lemma testBricks_ball_shape (bs : list Brick) :
  forall b, b_shape (snd (GameM.testBricks bs b)) = b_shape b.
Proof.
  induction bs as [|k bs IH]; intros b; [reflexivity|].
  cbn [GameM.testBricks].
  pose proof (testCollisionBrick_ball_shape k b) as Hs.
  destruct (testCollisionBrick k b) as [k' b1]. cbn [snd] in Hs.
  specialize (IH b1). destruct (GameM.testBricks bs b1) as [bs' b2].
  cbn [snd] in IH |- *. congruence.
Qed.

Lemma ballVelocity_times_step (v : float) :
  F32.abs v = ballVelocity -> (v * ftStep)%f32 = v.
Proof.
  intros H. destruct (abs_ballVelocity v H) as [-> | ->]; reflexivity.
Qed.

End StepBall.

(** X17. In one simulation step the ball goes where [Ball::update] moves it,
    whatever it collides with: collisions change the velocity only, never the
    position.  At the configured speed the move is exactly the velocity: the
    product by the step of 1 does not round. *)
Theorem simStep_ball_position :
  forall (k : Keys) (g : Game),
    b_shape (ball (GameM.simStep k g)) = b_shape (BallM.moved (ball g) ftStep) /\
    (speedOK (ball g) ->
     c_position (b_shape (ball (GameM.simStep k g))) =
       movePos (c_position (b_shape (ball g))) (b_velocity (ball g))).
Proof.
  intros k g.
  assert (H : b_shape (ball (GameM.simStep k g)) = b_shape (BallM.moved (ball g) ftStep)).
  { unfold GameM.simStep.
    pose proof (testBricks_ball_shape (bricks g)
                  (testCollisionPaddle (PaddleM.update k (paddle g) ftStep)
                     (snd (BallM.update (ball g) ftStep)))) as Hb.
    destruct (GameM.testBricks _ _) as [bs b']. cbn [snd] in Hb.
    cbn [ball GameM.setEntities]. rewrite Hb, testCollisionPaddle_shape.
    unfold BallM.update.
    repeat match goal with
           | |- context [if ?c then _ else _] => destruct c
           end; reflexivity. }
  split; [exact H|]. intros [Hx Hy]. rewrite H.
  unfold BallM.moved, scale. cbn [b_shape BallM.setPosition c_position].
  rewrite (ballVelocity_times_step _ Hx), (ballVelocity_times_step _ Hy).
  destruct (b_velocity (ball g)); reflexivity.
Qed.

(** The first step of the game. *)
Lemma simStep_ball_position_witness :
  c_position (b_shape (ball (GameM.simStep noKeys GameM.make))) =
    movePos (c_position (b_shape (ball GameM.make))) (b_velocity (ball GameM.make)).
Proof.
  destruct (simStep_ball_position noKeys GameM.make) as [_ H].
  apply H. split; reflexivity.
Defined.
